(** * Dooplechat signaling server: matchmaking and pairing

    A shallow embedding of the in-memory matchmaking module
    ([backend/dist/matchmaking.js]) and of the WebSocket message handlers of
    the signaling server ([server.ts]), followed by the properties of the
    pairing engine.

    Modelling conventions.
    - JS strings are modelled as [string].  The built-in methods [trim] and
      [toLowerCase] are not code of the repository: they are the two fields
      of the class [StringMethods], and the model and its general properties hold
      for every instance of it.  The examples are evaluated with the
      instance [asciiStrings], which computes the two methods on ASCII
      strings.
    - [Map<string, Set<string>>] (the interest pools) is a
      [gmap string (gset string)]: the code only ever asks a pool for
      membership, size and per-key lookup.
    - [Map<string, ClientInfo>] (the session registry) is an insertion-ordered
      association list, because the [close] handler iterates over its entries
      in insertion order.
    - A [ClientInfo] object is mutated only through its [pairedWith] field and
      every object sits under exactly one registry key, so a mutation of
      [peer.pairedWith] is an update of the registry entry the object was
      fetched from.
    - [send] appends to an outbox; [setTimeout] appends to a list of pending
      tasks, which fire oldest first (all delays are the same 1000 ms). *)

From Stdlib Require Import Ascii.
From stdpp Require Import gmap strings list fin_maps.

#[local] Set Warnings "-clear-no-such-hyp".


(** ** Strings: [String.prototype.trim] and [String.prototype.toLowerCase] *)

(** The two string methods the code calls are built into the language, not
    defined by the repository.  Both are Unicode-aware: [trim] strips every
    white space and line terminator of ECMAScript (U+00A0, U+FEFF, U+2028 and
    the like among them), [toLowerCase] folds by the Unicode case mapping.
    The model takes them as they come: every definition that calls one of
    them, and every property stated of it, is parametric in the two. *)
Class StringMethods := {
  trim : string → string;
  toLowerCase : string → string
}.

(** What the two methods compute on ASCII strings: [trim] strips the codes
    9-13 and 32, [toLowerCase] folds [A-Z].  This instance evaluates the
    examples, whose strings are all ASCII. *)
Definition isWhite (a : ascii) : bool :=
  let n := nat_of_ascii a in
  Nat.eqb n 32 || (Nat.leb 9 n && Nat.leb n 13).

Definition lowerChar (a : ascii) : ascii :=
  let n := nat_of_ascii a in
  if Nat.leb 65 n && Nat.leb n 90 then ascii_of_nat (n + 32) else a.

Fixpoint asciiToLowerCase (s : string) : string :=
  match s with
  | EmptyString => EmptyString
  | String a s' => String (lowerChar a) (asciiToLowerCase s')
  end.

Fixpoint trimStart (s : string) : string :=
  match s with
  | EmptyString => EmptyString
  | String a s' => if isWhite a then trimStart s' else s
  end.

Fixpoint trimEnd (s : string) : string :=
  match s with
  | EmptyString => EmptyString
  | String a s' =>
      match trimEnd s' with
      | EmptyString => if isWhite a then EmptyString else String a EmptyString
      | t => String a t
      end
  end.

Definition asciiTrim (s : string) : string := trimEnd (trimStart s).

Definition asciiStrings : StringMethods :=
  {| trim := asciiTrim; toLowerCase := asciiToLowerCase |}.

(** ** Data model ([types.ts]) *)

Inductive ChatMode := text | video.

#[global] Instance ChatMode_eq_dec : EqDecision ChatMode.
Proof. solve_decision. Defined.

(** [ClientInfo]; the connection [ws] is an opaque identity, [ip] plays no
    role in the handlers modelled here. *)
Record ClientInfo := mkClient {
  sessionId : string;
  mode : ChatMode;
  interests : list string;
  ws : nat;
  pairedWith : option string
}.

#[global] Instance ClientInfo_eq_dec : EqDecision ClientInfo.
Proof. solve_decision. Defined.

Definition setPairedWith (p : option string) (c : ClientInfo) : ClientInfo :=
  {| sessionId := sessionId c; mode := mode c; interests := interests c;
     ws := ws c; pairedWith := p |}.

(** ** The session registry: an insertion-ordered [Map] *)

Definition Registry := list (string * ClientInfo).

Fixpoint reg_get (reg : Registry) (k : string) : option ClientInfo :=
  match reg with
  | [] => None
  | (k', v) :: reg' => if decide (k' = k) then Some v else reg_get reg' k
  end.

(** [Map.prototype.set]: an existing key keeps its position. *)
Fixpoint reg_set (reg : Registry) (k : string) (v : ClientInfo) : Registry :=
  match reg with
  | [] => [(k, v)]
  | (k', v') :: reg' =>
      if decide (k' = k) then (k, v) :: reg' else (k', v') :: reg_set reg' k v
  end.

Fixpoint reg_delete (reg : Registry) (k : string) : Registry :=
  match reg with
  | [] => []
  | (k', v') :: reg' =>
      if decide (k' = k) then reg' else (k', v') :: reg_delete reg' k
  end.

(** Mutation of the object stored under [k] (no-op when [k] is absent). *)
Fixpoint reg_update (reg : Registry) (k : string) (f : ClientInfo -> ClientInfo)
  : Registry :=
  match reg with
  | [] => []
  | (k', v') :: reg' =>
      if decide (k' = k) then (k', f v') :: reg' else (k', v') :: reg_update reg' k f
  end.

(** ** Matchmaking queues ([matchmaking.js]) *)

Record MatchmakingQueues := mkQueues {
  waiting_text : list string;
  waiting_video : list string;
  interestPoolsText : gmap string (gset string);
  interestPoolsVideo : gmap string (gset string)
}.

Definition createQueues : MatchmakingQueues :=
  {| waiting_text := []; waiting_video := [];
     interestPoolsText := ∅; interestPoolsVideo := ∅ |}.

(** [isVideo ? queues.waiting_video : queues.waiting_text] and the like. *)
Definition waitingOf (m : ChatMode) (q : MatchmakingQueues) : list string :=
  match m with video => waiting_video q | text => waiting_text q end.

Definition poolsOf (m : ChatMode) (q : MatchmakingQueues)
  : gmap string (gset string) :=
  match m with video => interestPoolsVideo q | text => interestPoolsText q end.

(** Writing back the two structures selected by the mode. *)
Definition withMode (m : ChatMode) (w : list string)
  (p : gmap string (gset string)) (q : MatchmakingQueues) : MatchmakingQueues :=
  match m with
  | video => {| waiting_text := waiting_text q; waiting_video := w;
                interestPoolsText := interestPoolsText q; interestPoolsVideo := p |}
  | text => {| waiting_text := w; waiting_video := waiting_video q;
               interestPoolsText := p; interestPoolsVideo := interestPoolsVideo q |}
  end.

Section Model.

Context {JS : StringMethods}.

(** Body of the first loop of [enqueueClient]. *)
Definition poolAdd (sid : string) (pools : gmap string (gset string))
  (interest : string) : gmap string (gset string) :=
  let key := toLowerCase (trim interest) in
  if decide (key = "") then pools
  else <[key := default ∅ (pools !! key) ∪ {[sid]}]> pools.

Definition enqueueClient (q : MatchmakingQueues) (c : ClientInfo)
  : MatchmakingQueues :=
  let pools := foldl (poolAdd (sessionId c)) (poolsOf (mode c) q) (interests c) in
  withMode (mode c) (waitingOf (mode c) q ++ [sessionId c]) pools q.

(** [idx = waiting.indexOf(sid); if (idx >= 0) waiting.splice(idx, 1)]. *)
Fixpoint removeFirst (sid : string) (w : list string) : list string :=
  match w with
  | [] => []
  | x :: w' => if decide (x = sid) then w' else x :: removeFirst sid w'
  end.

(** Body of the loop of [removeFromQueues]; the key is not trimmed there. *)
Definition poolRemove (sid : string) (pools : gmap string (gset string))
  (interest : string) : gmap string (gset string) :=
  let key := toLowerCase interest in
  match pools !! key with
  | None => pools
  | Some set =>
      let set' := set ∖ {[sid]} in
      if decide (size set' = 0) then delete key pools else <[key := set']> pools
  end.

Definition removeFromQueues (q : MatchmakingQueues) (c : ClientInfo)
  : MatchmakingQueues :=
  let w := removeFirst (sessionId c) (waitingOf (mode c) q) in
  let pools := foldl (poolRemove (sessionId c)) (poolsOf (mode c) q) (interests c) in
  withMode (mode c) w pools q.

(** Candidate set of [tryMatch]: members of the pools of the client's
    interests, the client itself excluded. *)
Definition candAdd (sid : string) (pools : gmap string (gset string))
  (acc : gset string) (interest : string) : gset string :=
  match pools !! toLowerCase interest with
  | None => acc
  | Some set => acc ∪ (set ∖ {[sid]})
  end.

Definition candidateSet (q : MatchmakingQueues) (c : ClientInfo) : gset string :=
  foldl (candAdd (sessionId c) (poolsOf (mode c) q)) ∅ (interests c).

(** First loop over [waiting]: earliest candidate that is registered with the
    client's mode. *)
Fixpoint scanCandidates (cand : gset string) (reg : Registry) (c : ClientInfo)
  (w : list string) : option (string * ClientInfo) :=
  match w with
  | [] => None
  | sid :: w' =>
      if decide (sid = sessionId c) then scanCandidates cand reg c w'
      else if decide (sid ∈ cand) then
        match reg_get reg sid with
        | Some other =>
            if decide (mode other = mode c) then Some (sid, other)
            else scanCandidates cand reg c w'
        | None => scanCandidates cand reg c w'
        end
      else scanCandidates cand reg c w'
  end.

(** Second loop over [waiting]: plain FIFO pairing. *)
Fixpoint scanFifo (reg : Registry) (c : ClientInfo) (w : list string)
  : option (string * ClientInfo) :=
  match w with
  | [] => None
  | sid :: w' =>
      if decide (sid = sessionId c) then scanFifo reg c w'
      else
        match reg_get reg sid with
        | Some other =>
            if decide (mode other = mode c) then Some (sid, other)
            else scanFifo reg c w'
        | None => scanFifo reg c w'
        end
  end.

(** The result [{ a, b }] of a successful [tryMatch]. *)
Record MatchPair := mkPair { pair_a : string; pair_b : string }.

#[global] Instance MatchPair_eq_dec : EqDecision MatchPair.
Proof. solve_decision. Defined.

(** [tryMatch] returns the pair (or [None] for [null]) together with the
    queues as it leaves them. *)
Definition tryMatch (q : MatchmakingQueues) (c : ClientInfo) (reg : Registry)
  : option MatchPair * MatchmakingQueues :=
  let waiting := waitingOf (mode c) q in
  let cand := candidateSet q c in
  let hit :=
    if decide (0 < size cand) then scanCandidates cand reg c waiting else None in
  match hit with
  | Some (sid, other) =>
      (Some (mkPair (sessionId c) sid),
       removeFromQueues (removeFromQueues q c) other)
  | None =>
      match scanFifo reg c waiting with
      | Some (sid, other) =>
          (Some (mkPair (sessionId c) sid),
           removeFromQueues (removeFromQueues q c) other)
      | None => (None, q)
      end
  end.


(** ** The signaling server ([server.ts]) *)

(** A value of an untyped JSON array: a string or anything else. *)
Inductive JsValue := JsString (s : string) | JsOther.

(** [sanitizeInterests]; [None] stands for an [interests] field that is not
    an array. *)
Definition sanitizeEntry (x : JsValue) : string :=
  match x with
  | JsString s => toLowerCase (trim s)
  | JsOther => ""
  end.

Definition nonEmpty (s : string) : bool :=
  match s with EmptyString => false | _ => true end.

Definition sanitizeInterests (interests : option (list JsValue)) : list string :=
  match interests with
  | None => []
  | Some xs => take 10 (List.filter nonEmpty (List.map sanitizeEntry xs))
  end.

(** De-duplication that keeps the first occurrence of every entry, as
    [[...new Set(list)]] would; [seen] holds the entries met so far. *)
Fixpoint dedupFrom (seen : gset string) (l : list string) : list string :=
  match l with
  | [] => []
  | x :: l' =>
      if decide (x ∈ seen) then dedupFrom seen l'
      else x :: dedupFrom ({[x]} ∪ seen) l'
  end.

Definition dedup (l : list string) : list string := dedupFrom ∅ l.

(** Modelled on the words of the spec for the interests of a join: the
    entries are trimmed, lower-cased, de-duplicated, and truncated to the
    first 10 valid non-empty tokens. *)
Definition sanitizeInterestsSpec (interests : option (list JsValue))
  : list string :=
  match interests with
  | None => []
  | Some xs => take 10 (dedup (List.filter nonEmpty (List.map sanitizeEntry xs)))
  end.

(** [isValidUuidV4]: the anchored, case-insensitive pattern
    [[0-9a-f]{8}-[0-9a-f]{4}-4[0-9a-f]{3}-[89ab][0-9a-f]{3}-[0-9a-f]{12}]. *)
Inductive UuidClass := Hex | Dash | Four | Variant.

Definition inRange (lo hi : nat) (a : ascii) : bool :=
  Nat.leb lo (nat_of_ascii a) && Nat.leb (nat_of_ascii a) hi.

Definition classMatches (k : UuidClass) (a : ascii) : bool :=
  match k with
  | Hex => inRange 48 57 a || inRange 97 102 a || inRange 65 70 a
  | Dash => inRange 45 45 a
  | Four => inRange 52 52 a
  | Variant => inRange 56 57 a || inRange 97 98 a || inRange 65 66 a
  end.

Definition uuidPattern : list UuidClass :=
  replicate 8 Hex ++ [Dash] ++ replicate 4 Hex ++ [Dash; Four] ++ replicate 3 Hex
  ++ [Dash; Variant] ++ replicate 3 Hex ++ [Dash] ++ replicate 12 Hex.

Fixpoint matchesPattern (p : list UuidClass) (s : string) : bool :=
  match p, s with
  | [], EmptyString => true
  | k :: p', String a s' => classMatches k a && matchesPattern p' s'
  | _, _ => false
  end.

Definition isValidUuidV4 (candidate : string) : bool :=
  matchesPattern uuidPattern candidate.

(** The [mode] field of a join as it arrives, and its check
    [mode !== "text" && mode !== "video"]. *)
Definition parseMode (m : string) : option ChatMode :=
  if decide (m = "text") then Some text
  else if decide (m = "video") then Some video
  else None.

Inductive RelayKind := offer | answer | ice | message.

Inductive IncomingMessage :=
| Join (mode : string) (sid : string) (interests : option (list JsValue))
| Leave (sid : string)
| Next (sid : string)
| Report (sid : string) (reason : string)
| Relay (kind : RelayKind) (to : option string) (body : string)
| Unknown.

Inductive OutgoingMessage :=
| Paired (peerSessionId : string)
| Waiting
| Error (error : string)
| Debug (msg : string)
| Forwarded (kind : RelayKind) (to : string) (body : string).

#[global] Instance RelayKind_eq_dec : EqDecision RelayKind.
Proof. solve_decision. Defined.

#[global] Instance OutgoingMessage_eq_dec : EqDecision OutgoingMessage.
Proof. solve_decision. Defined.

(** A pending [setTimeout] callback.  The closure of the join handler holds
    the session id and the joining connection, and looks the session up when
    it runs; the closure of the next handler holds the client object [c]
    itself, of which it reads [sessionId], [mode], [interests] and [ws] (none
    of them is ever mutated). *)
Inductive Task :=
| JoinAttempt (sid : string) (conn : nat)
| NextAttempt (c : ClientInfo).

(** Module-level state of the server, with the messages sent so far
    (connection, message) and the pending timers, oldest first.  A report is
    kept as (sessionId, reason). *)
Record Server := mkServer {
  sessionIdToClient : Registry;
  queues : MatchmakingQueues;
  reportsQueue : list (string * string);
  timers : list Task;
  outbox : list (nat * OutgoingMessage)
}.

Definition initial : Server :=
  {| sessionIdToClient := []; queues := createQueues; reportsQueue := [];
     timers := []; outbox := [] |}.

Definition setRegistry (r : Registry) (s : Server) : Server :=
  {| sessionIdToClient := r; queues := queues s; reportsQueue := reportsQueue s;
     timers := timers s; outbox := outbox s |}.

Definition setQueues (q : MatchmakingQueues) (s : Server) : Server :=
  {| sessionIdToClient := sessionIdToClient s; queues := q;
     reportsQueue := reportsQueue s; timers := timers s; outbox := outbox s |}.

Definition setTimers (t : list Task) (s : Server) : Server :=
  {| sessionIdToClient := sessionIdToClient s; queues := queues s;
     reportsQueue := reportsQueue s; timers := t; outbox := outbox s |}.

Definition pushReport (sid reason : string) (s : Server) : Server :=
  {| sessionIdToClient := sessionIdToClient s; queues := queues s;
     reportsQueue := reportsQueue s ++ [(sid, reason)]; timers := timers s;
     outbox := outbox s |}.

Definition send (conn : nat) (m : OutgoingMessage) (s : Server) : Server :=
  {| sessionIdToClient := sessionIdToClient s; queues := queues s;
     reportsQueue := reportsQueue s; timers := timers s;
     outbox := outbox s ++ [(conn, m)] |}.

Definition setTimeout (t : Task) (s : Server) : Server :=
  setTimers (timers s ++ [t]) s.

(** JS truthiness of [c.pairedWith]: [undefined] and the empty string are
    falsy. *)
Definition truthy (p : option string) : option string :=
  match p with
  | Some EmptyString => None
  | other => other
  end.

(** The block that follows every call of [tryMatch] in the handlers:
    on a pair, both registry entries are fetched and linked to each other;
    on [null], [waiting] goes to [conn]. *)
Definition settle (attempt : option MatchPair) (conn : nat) (s : Server) : Server :=
  match attempt with
  | Some p =>
      match reg_get (sessionIdToClient s) (pair_a p),
            reg_get (sessionIdToClient s) (pair_b p) with
      | Some a, Some b =>
          let r1 := reg_update (sessionIdToClient s) (pair_a p)
                      (setPairedWith (Some (sessionId b))) in
          let r2 := reg_update r1 (pair_b p) (setPairedWith (Some (sessionId a))) in
          send (ws b) (Paired (sessionId a))
            (send (ws a) (Paired (sessionId b)) (setRegistry r2 s))
      | _, _ => s
      end
  | None => send conn Waiting s
  end.

(** [tryMatch] on the server's queues and registry, then [settle]. *)
Definition matchFor (c : ClientInfo) (conn : nat) (s : Server) : Server :=
  let '(attempt, q) := tryMatch (queues s) c (sessionIdToClient s) in
  settle attempt conn (setQueues q s).

(** The closure [attemptMatch] of the join handler. *)
Definition attemptMatch (sid : string) (conn : nat) (s : Server) : Server :=
  match reg_get (sessionIdToClient s) sid with
  | None => s
  | Some current => matchFor current conn s
  end.

(** Teardown of the pairing of [c], shared in shape by leave, next, report and
    close: the peer's link is cleared and the peer is told [note];
    [requeue] says whether the peer goes back to the tail. *)
Definition dropPeer (c : ClientInfo) (note : string) (requeue : bool) (s : Server)
  : Server :=
  match truthy (pairedWith c) with
  | None => s
  | Some p =>
      match reg_get (sessionIdToClient s) p with
      | None => s
      | Some peer =>
          let s1 := setRegistry
                      (reg_update (sessionIdToClient s) p (setPairedWith None)) s in
          let s2 := send (ws peer) (Debug note) s1 in
          if requeue then setQueues (enqueueClient (queues s2) peer) s2 else s2
      end
  end.

Definition handleJoin (conn : nat) (m sid : string)
  (ints : option (list JsValue)) (s : Server) : Server :=
  if negb (isValidUuidV4 sid) then send conn (Error "invalid_sessionId") s
  else
    match parseMode m with
    | None => send conn (Error "invalid_mode") s
    | Some md =>
        let interests := sanitizeInterests ints in
        let info := mkClient sid md interests conn None in
        let s1 := setRegistry (reg_set (sessionIdToClient s) sid info) s in
        let s2 := setQueues (enqueueClient (queues s1) info) s1 in
        if decide (0 < length interests) then setTimeout (JoinAttempt sid conn) s2
        else attemptMatch sid conn s2
    end.

Definition handleLeave (sid : string) (s : Server) : Server :=
  match reg_get (sessionIdToClient s) sid with
  | None => s
  | Some c =>
      let s1 := dropPeer c "peer_left" false s in
      let s2 := setQueues (removeFromQueues (queues s1) c) s1 in
      setRegistry (reg_delete (sessionIdToClient s2) (sessionId c)) s2
  end.

Definition handleNext (sid : string) (s : Server) : Server :=
  match reg_get (sessionIdToClient s) sid with
  | None => s
  | Some c =>
      let s1 :=
        match truthy (pairedWith c) with
        | None => s
        | Some _ =>
            let s' := dropPeer c "peer_skipped" true s in
            setRegistry (reg_update (sessionIdToClient s') sid (setPairedWith None)) s'
        end in
      let s2 := setQueues (removeFromQueues (queues s1) c) s1 in
      let s3 := setQueues (enqueueClient (queues s2) c) s2 in
      if decide (0 < length (interests c)) then setTimeout (NextAttempt c) s3
      else matchFor c (ws c) s3
  end.

Definition handleReport (sid reason : string) (s : Server) : Server :=
  let s0 := pushReport sid reason s in
  match reg_get (sessionIdToClient s0) sid with
  | None => s0
  | Some c =>
      match truthy (pairedWith c) with
      | None => s0
      | Some _ =>
          let s1 := dropPeer c "peer_reported" false s0 in
          setRegistry (reg_update (sessionIdToClient s1) sid (setPairedWith None)) s1
      end
  end.

Definition handleRelay (kind : RelayKind) (to : option string) (body : string)
  (s : Server) : Server :=
  match truthy to with
  | None => s
  | Some t =>
      match reg_get (sessionIdToClient s) t with
      | None => s
      | Some peer => send (ws peer) (Forwarded kind t body) s
      end
  end.

(** The [switch (msg.type)] of the message handler, for a message that parsed
    and passed the rate limiter. *)
Definition handleMessage (conn : nat) (msg : IncomingMessage) (s : Server) : Server :=
  match msg with
  | Join m sid ints => handleJoin conn m sid ints s
  | Leave sid => handleLeave sid s
  | Next sid => handleNext sid s
  | Report sid reason => handleReport sid reason s
  | Relay kind to body => handleRelay kind to body s
  | Unknown => send conn (Error "unknown_type") s
  end.

(** First registry entry, in insertion order, whose connection is [conn]. *)
Fixpoint findByWs (reg : Registry) (conn : nat) : option (string * ClientInfo) :=
  match reg with
  | [] => None
  | (sid, c) :: reg' =>
      if decide (ws c = conn) then Some (sid, c) else findByWs reg' conn
  end.

(** The [close] handler of a connection. *)
Definition handleClose (conn : nat) (s : Server) : Server :=
  match findByWs (sessionIdToClient s) conn with
  | None => s
  | Some (sid, c) =>
      let s1 := dropPeer c "peer_disconnected" true s in
      let s2 := setQueues (removeFromQueues (queues s1) c) s1 in
      setRegistry (reg_delete (sessionIdToClient s2) sid) s2
  end.

Definition runTask (t : Task) (s : Server) : Server :=
  match t with
  | JoinAttempt sid conn => attemptMatch sid conn s
  | NextAttempt c => matchFor c (ws c) s
  end.

(** What the event loop can deliver: a message on a connection, the close of
    a connection, or the expiry of the oldest pending timer. *)
Inductive Event :=
| Message (conn : nat) (msg : IncomingMessage)
| Close (conn : nat)
| TimerFires.

Definition step (s : Server) (e : Event) : Server :=
  match e with
  | Message conn msg => handleMessage conn msg s
  | Close conn => handleClose conn s
  | TimerFires =>
      match timers s with
      | [] => s
      | t :: rest => runTask t (setTimers rest s)
      end
  end.

Definition run (s : Server) (es : list Event) : Server := foldl step s es.

(** ** Vocabulary of the properties *)

(** An interest in normal form: not empty, and left as it is by [trim] and
    by [toLowerCase]. *)
Definition normalToken (s : string) : Prop :=
  s ≠ "" ∧ trim s = s ∧ toLowerCase s = s.

(** The key [enqueueClient] files an interest under. *)
Definition poolKey (interest : string) : string := toLowerCase (trim interest).

(** What is left of a pool once [sid] has been deleted from it. *)
Definition strip (sid : string) (o : option (gset string))
  : option (gset string) :=
  match o with
  | None => None
  | Some set =>
      if decide (size (set ∖ {[sid]}) = 0) then None else Some (set ∖ {[sid]})
  end.

(** An entry the first scan stops at: a candidate, not the client, and
    registered with the client's mode. *)
Definition eligible (cand : gset string) (reg : Registry) (c : ClientInfo)
  (sid : string) : Prop :=
  sid ≠ sessionId c ∧ sid ∈ cand
  ∧ ∃ other, reg_get reg sid = Some other ∧ mode other = mode c.

(** The session sits only in pools that [removeFromQueues] will visit for it:
    those keyed by the lower-cased form of one of its interests.  This is how
    [enqueueClient] leaves a session whose interests are already trimmed. *)
Definition pooledByInterests (pools : gmap string (gset string)) (x : ClientInfo)
  : Prop :=
  ∀ k S, pools !! k = Some S → sessionId x ∈ S → k ∈ toLowerCase <$> interests x.

(** The shape the server keeps its registry in: one entry per key, and each
    record filed under its own [sessionId]. *)
Definition keyed (reg : Registry) : Prop :=
  NoDup reg.*1 ∧ Forall (λ kv, sessionId kv.2 = kv.1) reg.

(** Two records of the same session: they differ at most in [pairedWith]. *)
Definition sameSession (r r' : ClientInfo) : Prop :=
  sessionId r' = sessionId r ∧ mode r' = mode r
  ∧ interests r' = interests r ∧ ws r' = ws r.

(** No [error] message was sent between [s] and [s']. *)
Definition noNewError (s s' : Server) : Prop :=
  ∀ conn e, (conn, Error e) ∈ outbox s' → (conn, Error e) ∈ outbox s.

(** Invariant 2 of the data model, over the registered sessions. *)
Definition symmetricPairing (reg : Registry) : Prop :=
  ∀ a b ra rb,
    reg_get reg a = Some ra → reg_get reg b = Some rb →
    (pairedWith ra = Some b ↔ pairedWith rb = Some a).

(** Modelled on the words of the spec for [disconnect]: the session is found
    by reverse lookup from the connection, then the event is handled as a
    leave of that session. *)
Definition disconnectAsLeave (conn : nat) (s : Server) : Server :=
  match findByWs (sessionIdToClient s) conn with
  | None => s
  | Some (sid, _) => handleLeave sid s
  end.

(** ** Runs of the server used in the examples *)

(** Session ids that pass [isValidUuidV4]. *)
Definition uA : string := "aaaaaaaa-aaaa-4aaa-8aaa-aaaaaaaaaaaa".
Definition uB : string := "bbbbbbbb-bbbb-4bbb-8bbb-bbbbbbbbbbbb".
Definition uC : string := "cccccccc-cccc-4ccc-8ccc-cccccccccccc".
Definition uD : string := "dddddddd-dddd-4ddd-8ddd-dddddddddddd".

(** [uA] joins for video with an interest, joins again for text (its video
    FIFO entry and pool entry stay behind), then [uC] (no interest) and [uB]
    (same interest) join for video. *)
Definition staleCandidateRun : list Event :=
  [ Message 1 (Join "video" uA (Some [JsString "music"]));
    Message 1 (Join "text" uA None);
    Message 3 (Join "video" uC None);
    Message 2 (Join "video" uB (Some [JsString "music"])) ].

(** A joins twice on its connection, which puts its id in the text FIFO
    twice; then B joins, and then D. *)
Definition doubleJoinRun : list Event :=
  [ Message 1 (Join "text" uA None); Message 1 (Join "text" uA None);
    Message 2 (Join "text" uB None); Message 4 (Join "text" uD None) ].

(** A and B, paired by two joins without interests. *)
Definition pairedRun : list Event :=
  [ Message 1 (Join "text" uA None); Message 2 (Join "text" uB None) ].

(** A joins with an interest, so its first attempt is deferred; B joins
    without one and is paired with A at once; C joins and waits; then A's
    deferred attempt runs. *)
Definition lateAttemptRun : list Event :=
  [ Message 1 (Join "text" uA (Some [JsString "x"]));
    Message 2 (Join "text" uB None);
    Message 3 (Join "text" uC None);
    TimerFires ].

(** A joins with an interest and asks for the next partner, which schedules a
    deferred attempt holding A's client object; A leaves; C joins and waits;
    the deferred attempt of A's join runs and, finding A gone, does nothing. *)
Definition staleNextRun : list Event :=
  [ Message 1 (Join "text" uA (Some [JsString "x"]));
    Message 1 (Next uA);
    Message 1 (Leave uA);
    Message 3 (Join "text" uC None);
    TimerFires ].

(** ** Vocabulary of the queue properties *)

(** [x] is a member of the pool filed under [k]. *)
Definition inPool (pools : gmap string (gset string)) (k x : string) : Prop :=
  ∃ S, pools !! k = Some S ∧ x ∈ S.

(** No pool is an empty set: [removeFromQueues] discards a pool it empties. *)
Definition noEmptyPool (pools : gmap string (gset string)) : Prop :=
  ∀ k S, pools !! k = Some S → S ≠ ∅.

(** An entry the second scan stops at: not the client, and registered with the
    client's mode. *)
Definition fifoEligible (reg : Registry) (c : ClientInfo) (sid : string) : Prop :=
  sid ≠ sessionId c ∧ ∃ other, reg_get reg sid = Some other ∧ mode other = mode c.


(** ** Vocabulary of the server invariants *)

(** Every record of the registry satisfies [P]. *)
Definition allRecords (P : ClientInfo → Prop) (reg : Registry) : Prop :=
  Forall (λ kv, P kv.2) reg.

(** An interest as [sanitizeInterests] stores it: not empty, and some string
    put through [trim] and then [toLowerCase]. *)
Definition storedToken (s : string) : Prop :=
  s ≠ "" ∧ ∃ t, s = toLowerCase (trim t).

(** The interests of a record are as [sanitizeInterests] leaves them. *)
Definition sanitized (c : ClientInfo) : Prop :=
  Forall storedToken (interests c) ∧ length (interests c) ≤ 10.

(** [q'] is obtained from [q] by calls of [enqueueClient] and
    [removeFromQueues]. *)
Inductive queueTrace (q : MatchmakingQueues) : MatchmakingQueues → Prop :=
| queueTrace_refl : queueTrace q q
| queueTrace_enqueue q' c : queueTrace q q' → queueTrace q (enqueueClient q' c)
| queueTrace_remove q' c : queueTrace q q' → queueTrace q (removeFromQueues q' c).

End Model.

(** The client builder and the session ids of [tests/matchmaking.test.ts]. *)
Module Tests.
Definition mk (sid : string) (m : ChatMode) (ints : list string) : ClientInfo :=
  mkClient sid m ints 0 None.

Definition idA := "a-1111-4111-8111-111111111111".
Definition idB := "b-1111-4111-8111-111111111111".
Definition idC := "c-1111-4111-8111-111111111111".
End Tests.

(** ** The rate limiter ([checkRateLimit] of [server.ts]) *)

(** [rateLimiterConfig]: a window of 60 s with at most 30 messages. *)
Definition rateLimiterConfig_windowMs : Z := 60000.
Definition rateLimiterConfig_max : nat := 30.

(** An entry of [ipToWindow]. *)
Record WindowInfo := mkWindow { windowStart : Z; count : nat }.

(** [checkRateLimit(ip)], with the value of [Date.now()] as [now]: the answer
    and the map as the call leaves it. *)
Definition checkRateLimit (now : Z) (ip : string) (ipToWindow : gmap string WindowInfo)
  : bool * gmap string WindowInfo :=
  match ipToWindow !! ip with
  | None => (true, <[ip := mkWindow now 1]> ipToWindow)
  | Some info =>
      if decide (rateLimiterConfig_windowMs < now - windowStart info)%Z
      then (true, <[ip := mkWindow now 1]> ipToWindow)
      else
        let info' := mkWindow (windowStart info) (count info + 1) in
        (bool_decide (count info' ≤ rateLimiterConfig_max), <[ip := info']> ipToWindow)
  end.

(** Successive calls for one address at the given times: the answers, in
    order, and the final map. *)
Fixpoint checkMany (ip : string) (times : list Z) (ipToWindow : gmap string WindowInfo)
  : list bool * gmap string WindowInfo :=
  match times with
  | [] => ([], ipToWindow)
  | now :: rest =>
      let '(ok, w) := checkRateLimit now ip ipToWindow in
      let '(oks, w') := checkMany ip rest w in
      (ok :: oks, w')
  end.

(** ** The reconnecting client ([frontend/src/lib/wsClient.ts]) *)

(** The fields of [ResilientWS] that drive reconnection, with the delays of
    the reconnect timers that are pending and the number of [WebSocket]
    objects created so far. *)
Record ResilientWS := mkResilientWS {
  backoffMs : nat;
  shouldRun : bool;
  pendingReconnects : list nat;
  socketsOpened : nat
}.

Definition maxBackoffMs : nat := 5000.

(** [connect()]. *)
Definition connect (c : ResilientWS) : ResilientWS :=
  if shouldRun c
  then mkResilientWS (backoffMs c) (shouldRun c) (pendingReconnects c)
         (S (socketsOpened c))
  else c.

(** [new ResilientWS(url)]. *)
Definition newResilientWS : ResilientWS := connect (mkResilientWS 500 true [] 0).

(** [ws.onopen]. *)
Definition onopen (c : ResilientWS) : ResilientWS :=
  mkResilientWS 500 (shouldRun c) (pendingReconnects c) (socketsOpened c).

(** [ws.onclose]: schedule a reconnect after the current backoff, then double
    the backoff up to the maximum. *)
Definition onclose (c : ResilientWS) : ResilientWS :=
  if shouldRun c
  then mkResilientWS (Nat.min maxBackoffMs (backoffMs c * 2)) (shouldRun c)
         (pendingReconnects c ++ [backoffMs c]) (socketsOpened c)
  else c.

(** [close()] of the client. *)
Definition clientClose (c : ResilientWS) : ResilientWS :=
  mkResilientWS (backoffMs c) false (pendingReconnects c) (socketsOpened c).

(** What can happen to a client: its socket opens or closes, the pending
    reconnect timer number [i] expires, or the application calls [close()]. *)
Inductive ClientEvent :=
| SocketOpened
| SocketClosed
| ReconnectFires (i : nat)
| CloseCalled.

Definition clientStep (c : ResilientWS) (e : ClientEvent) : ResilientWS :=
  match e with
  | SocketOpened => onopen c
  | SocketClosed => onclose c
  | ReconnectFires i =>
      match pendingReconnects c !! i with
      | None => c
      | Some _ =>
          connect (mkResilientWS (backoffMs c) (shouldRun c)
                     (delete i (pendingReconnects c)) (socketsOpened c))
      end
  | CloseCalled => clientClose c
  end.

Definition clientRun (c : ResilientWS) (es : list ClientEvent) : ResilientWS :=
  foldl clientStep c es.

(** The backoff and every pending delay lie between 500 and 5000 ms. *)
Definition backoffInRange (c : ResilientWS) : Prop :=
  500 ≤ backoffMs c ≤ 5000
  ∧ Forall (λ d, 500 ≤ d ≤ 5000) (pendingReconnects c).

(** ** The initiator of the negotiation ([App], on a [paired] message) *)

(** [const iAmCaller = sessionId < msg.peerSessionId]: the comparison of two
    strings by code units, the shorter of two strings that agree being the
    smaller. *)
Definition iAmCaller (sessionId peerSessionId : string) : bool :=
  String.ltb sessionId peerSessionId.


(** ** The Redis-backed helpers ([redisMatchmaking.js]) *)

(** The helpers are modelled as one client runs them, with no other client
    touching the store between two of its commands.  The store holds the
    lists and the sets; a key whose list or set becomes empty is removed, as
    Redis does.  [queueKey] and [poolKey] never build the same key, so the
    queue lists and the pool sets are kept in two maps. *)
Module RedisMatchmaking.

Record Store := mkStore {
  lists : gmap string (list string);
  sets : gmap string (gset string)
}.

Definition queueKey (mode : string) : string := String.append "queue:" mode.

Definition poolKey (mode interest : string) : string :=
  String.append "pool:" (String.append mode (String.append ":" interest)).

Definition presenceKey (sessionId : string) : string :=
  String.append "presence:" sessionId.

Definition signalChannel (sessionId : string) : string :=
  String.append "signal:" sessionId.

(** [LRANGE key 0 -1] and [SMEMBERS key], the latter as a set; the order in
    which Redis lists the members is a parameter of [tryDequeuePair]. *)
Definition lRange (key : string) (st : Store) : list string :=
  default [] (lists st !! key).

Definition sMembers (key : string) (st : Store) : gset string :=
  default ∅ (sets st !! key).

Definition rPush (key v : string) (st : Store) : Store :=
  mkStore (<[key := lRange key st ++ [v]]> (lists st)) (sets st).

Definition sAdd (key v : string) (st : Store) : Store :=
  mkStore (lists st) (<[key := sMembers key st ∪ {[v]}]> (sets st)).

(** [LREM key 0 v]: every occurrence of [v] goes. *)
Definition lRem (key v : string) (st : Store) : Store :=
  let l := filter (λ x, x ≠ v) (lRange key st) in
  mkStore (if decide (l = []) then delete key (lists st) else <[key := l]> (lists st))
    (sets st).

Definition sRem (key v : string) (st : Store) : Store :=
  let m := sMembers key st ∖ {[v]} in
  mkStore (lists st)
    (if decide (size m = 0) then delete key (sets st) else <[key := m]> (sets st)).

Definition enqueue (st : Store) (mode sessionId : string) (interests : list string)
  : Store :=
  foldl (λ acc i, sAdd (poolKey mode i) sessionId acc)
    (rPush (queueKey mode) sessionId st) interests.

Definition removeFromAll (st : Store) (mode sessionId : string)
  (interests : list string) : Store :=
  foldl (λ acc i, sRem (poolKey mode i) sessionId acc)
    (lRem (queueKey mode) sessionId st) interests.

(** The inner loop of [tryDequeuePair] over the members of one pool: the
    first member that is not the caller and is in the queue. *)
Fixpoint scanMembers (sessionId : string) (list members : list string)
  : option string :=
  match members with
  | [] => None
  | candidate :: rest =>
      if decide (candidate = sessionId) then scanMembers sessionId list rest
      else if decide (candidate ∈ list) then Some candidate
      else scanMembers sessionId list rest
  end.

(** The outer loop over the caller's interests. *)
Fixpoint scanInterests (order : gset string → list string) (st : Store)
  (mode sessionId : string) (interests : list string) : option string :=
  match interests with
  | [] => None
  | i :: rest =>
      match scanMembers sessionId (lRange (queueKey mode) st)
              (order (sMembers (poolKey mode i) st)) with
      | Some candidate => Some candidate
      | None => scanInterests order st mode sessionId rest
      end
  end.

(** The fallback loop: the first id of the queue that is not the caller. *)
Fixpoint firstOther (sessionId : string) (all : list string) : option string :=
  match all with
  | [] => None
  | id :: rest => if decide (id ≠ sessionId) then Some id else firstOther sessionId rest
  end.

(** [tryDequeuePair]: the id returned ([None] for [null]) and the store as it
    is left. *)
Definition tryDequeuePair (order : gset string → list string) (st : Store)
  (mode sessionId : string) (interests : list string) : option string * Store :=
  match scanInterests order st mode sessionId interests with
  | Some candidate =>
      (Some candidate,
       lRem (queueKey mode) candidate (removeFromAll st mode sessionId interests))
  | None =>
      match firstOther sessionId (lRange (queueKey mode) st) with
      | Some id =>
          (Some id, lRem (queueKey mode) id (removeFromAll st mode sessionId interests))
      | None => (None, st)
      end
  end.

End RedisMatchmaking.

(** [order] lists the members of every set, each of them and nothing else. *)
Definition enumerates (order : gset string → list string) : Prop :=
  ∀ S x, x ∈ order S ↔ x ∈ S.

(** * Properties *)

Section Properties.

Context {JS : StringMethods}.

(** ** The interests of a join *)

Section Sanitize.

Implicit Types (l : list string) (seen : gset string) (xs : list JsValue).

Lemma dedupFrom_app seen l1 l2 :
  dedupFrom seen (l1 ++ l2)
  = dedupFrom seen l1 ++ dedupFrom (list_to_set l1 ∪ seen) l2.
Proof.
  revert seen. induction l1 as [|x l1 IH]; intros seen.
  - cbn [app dedupFrom list_to_set]. f_equal. set_solver.
  - cbn [app dedupFrom list_to_set]. destruct (decide (x ∈ seen)) as [Hx|Hx].
    + rewrite IH. do 2 f_equal. set_solver.
    + rewrite IH. cbn [app]. do 3 f_equal. set_solver.
Qed.

Lemma dedupFrom_length seen l : length (dedupFrom seen l) ≤ length l.
Proof.
  revert seen. induction l as [|x l IH]; intros seen; cbn [dedupFrom length]; [lia|].
  destruct (decide (x ∈ seen)); cbn [length].
  - specialize (IH seen). lia.
  - specialize (IH ({[x]} ∪ seen)). lia.
Qed.

Lemma dedupFrom_elem seen l x : x ∈ dedupFrom seen l → x ∈ l ∧ x ∉ seen.
Proof.
  revert seen. induction l as [|y l IH]; intros seen; cbn [dedupFrom].
  - intros H. now apply elem_of_nil in H.
  - destruct (decide (y ∈ seen)) as [Hy|Hy].
    + intros H. apply IH in H as [H1 H2]. split; [now right | exact H2].
    + intros H. apply elem_of_cons in H as [->|H].
      * split; [left | exact Hy].
      * apply IH in H as [H1 H2]. split; [now right | set_solver].
Qed.

Lemma dedupFrom_NoDup seen l : NoDup (dedupFrom seen l).
Proof.
  revert seen. induction l as [|x l IH]; intros seen; cbn [dedupFrom].
  - constructor.
  - destruct (decide (x ∈ seen)); [apply IH|].
    constructor; [|apply IH].
    intros H. apply dedupFrom_elem in H as [_ H]. set_solver.
Qed.

Lemma dedupFrom_id seen l :
  NoDup l → (∀ x, x ∈ l → x ∉ seen) → dedupFrom seen l = l.
Proof.
  revert seen. induction l as [|x l IH]; intros seen Hnd Hs; [reflexivity|].
  apply NoDup_cons in Hnd as [Hx Hnd]. cbn [dedupFrom].
  rewrite decide_False by (apply Hs; left). f_equal. apply IH; [exact Hnd|].
  intros y Hy. assert (y ≠ x) by (intros ->; contradiction).
  assert (y ∉ seen) by (apply Hs; now right). set_solver.
Qed.

Lemma dedup_take_prefix (n : nat) l : dedup (take n l) `prefix_of` dedup l.
Proof.
  unfold dedup. rewrite <- (take_drop n l) at 2. rewrite dedupFrom_app.
  now apply prefix_app_r.
Qed.

Lemma prefix_take_of (n : nat) l1 l2 :
  l1 `prefix_of` l2 → length l1 ≤ n → l1 `prefix_of` take n l2.
Proof.
  intros [k ->] Hn. rewrite take_app_ge by exact Hn. now apply prefix_app_r.
Qed.

Lemma sanitizeEntry_origin xs s :
  s ∈ List.filter nonEmpty (List.map sanitizeEntry xs) →
  s ≠ "" ∧ ∃ t, JsString t ∈ xs ∧ s = toLowerCase (trim t).
Proof.
  intros Hs. apply list_elem_of_In, filter_In in Hs as [Hin Hne].
  apply in_map_iff in Hin as (x & <- & Hx). apply list_elem_of_In in Hx.
  destruct x as [t|]; [|discriminate]. split.
  - intros E. rewrite E in Hne. discriminate.
  - exists t. split; [exact Hx | reflexivity].
Qed.

Lemma sanitizeInterests_stored (ints : option (list JsValue)) :
  Forall storedToken (sanitizeInterests ints).
Proof.
  destruct ints as [xs|]; cbn [sanitizeInterests]; [|constructor].
  apply Forall_take. rewrite Forall_forall. intros s Hs.
  apply sanitizeEntry_origin in Hs as (Hne & t & _ & ->).
  split; [exact Hne | now exists t].
Qed.

Lemma sanitizeInterests_length (ints : option (list JsValue)) :
  length (sanitizeInterests ints) ≤ 10.
Proof.
  destruct ints as [xs|]; cbn [sanitizeInterests]; [|cbn; lia].
  rewrite length_take. lia.
Qed.

(** A stored token is its own pool key, as soon as lower-casing a trimmed
    string leaves it trimmed. *)
Lemma storedToken_keys (ints : list string) :
  (∀ t, trim (toLowerCase (trim t)) = toLowerCase (trim t)) →
  Forall storedToken ints → poolKey <$> ints = toLowerCase <$> ints.
Proof.
  intros Htrim H. induction H as [|s l (_ & t & ->) _ IH]; [reflexivity|].
  rewrite !fmap_cons, IH. unfold poolKey. now rewrite Htrim.
Qed.

(** The list the spec describes has no repetition and at most ten entries. *)
Lemma sanitizeInterestsSpec_NoDup (ints : option (list JsValue)) :
  NoDup (sanitizeInterestsSpec ints) ∧ length (sanitizeInterestsSpec ints) ≤ 10.
Proof.
  destruct ints as [xs|]; cbn [sanitizeInterestsSpec].
  - split; [|rewrite length_take; lia].
    eapply sublist_NoDup; [apply dedupFrom_NoDup | apply sublist_take].
  - split; [constructor | cbn; lia].
Qed.

End Sanitize.

(** C8 (as the code has it).  The stored interests are the first ten
    non-empty tokens among the entries of the message, each a string entry
    put through [trim] and then [toLowerCase], in the order of arrival: at
    most ten of them, none empty.  No entry is dropped for being a
    repetition: the distinct stored tokens, in the order of their first
    occurrence, are a prefix of the de-duplicated list the spec describes,
    and the stored list is that list exactly when it happens to hold no
    token twice. *)
Theorem sanitizeInterests_first_ten (xs : list JsValue) :
  let valid := List.filter nonEmpty (List.map sanitizeEntry xs) in
  let stored := sanitizeInterests (Some xs) in
  stored = take 10 valid
  ∧ length stored ≤ 10
  ∧ Forall (λ s, s ≠ "" ∧ ∃ t, JsString t ∈ xs ∧ s = toLowerCase (trim t)) stored
  ∧ dedup stored `prefix_of` sanitizeInterestsSpec (Some xs)
  ∧ (stored = sanitizeInterestsSpec (Some xs) ↔ NoDup stored).
Proof.
  intros valid stored.
  assert (Hlen : length stored ≤ 10).
  { subst stored. cbn [sanitizeInterests]. rewrite length_take. lia. }
  assert (Hpre : dedup stored `prefix_of` sanitizeInterestsSpec (Some xs)).
  { cbn [sanitizeInterestsSpec]. apply prefix_take_of.
    - apply dedup_take_prefix.
    - etransitivity; [apply dedupFrom_length | exact Hlen]. }
  split; [reflexivity|]. split; [exact Hlen|]. split; [|split; [exact Hpre|]].
  - apply Forall_take. rewrite Forall_forall. intros s Hs.
    now apply sanitizeEntry_origin.
  - split.
    + intros ->. apply sanitizeInterestsSpec_NoDup.
    + intros Hnd. apply prefix_length_eq.
      * unfold dedup in Hpre. rewrite dedupFrom_id in Hpre; [exact Hpre | exact Hnd|].
        intros x _. apply not_elem_of_empty.
      * subst stored. cbn [sanitizeInterests sanitizeInterestsSpec].
        rewrite !length_take. fold valid.
        pose proof (dedupFrom_length ∅ valid). unfold dedup. lia.
Qed.


(** ** The matchmaking queues *)

Section Matchmaking.

Implicit Types (q : MatchmakingQueues) (c other : ClientInfo) (reg : Registry).
Implicit Types (w pre post : list string) (pools : gmap string (gset string)).
Implicit Types (sid x : string) (cand : gset string).

Lemma waitingOf_withMode m w pools q : waitingOf m (withMode m w pools q) = w.
Proof. now destruct m. Qed.

Lemma poolsOf_withMode m w pools q : poolsOf m (withMode m w pools q) = pools.
Proof. now destruct m. Qed.

Lemma waitingOf_withMode_ne m m' w pools q :
  m ≠ m' → waitingOf m' (withMode m w pools q) = waitingOf m' q.
Proof. now destruct m, m'. Qed.

Lemma poolsOf_withMode_ne m m' w pools q :
  m ≠ m' → poolsOf m' (withMode m w pools q) = poolsOf m' q.
Proof. now destruct m, m'. Qed.

(** *** The two scans of [tryMatch] *)

Lemma scanCandidates_Some cand reg c w sid other :
  scanCandidates cand reg c w = Some (sid, other) →
  sid ∈ w ∧ sid ≠ sessionId c ∧ sid ∈ cand
  ∧ reg_get reg sid = Some other ∧ mode other = mode c.
Proof.
  induction w as [|y w IH]; simpl; [discriminate|].
  intros H.
  assert (rec : scanCandidates cand reg c w = Some (sid, other) →
                sid ∈ y :: w ∧ sid ≠ sessionId c ∧ sid ∈ cand
                ∧ reg_get reg sid = Some other ∧ mode other = mode c).
  { intros H'. destruct (IH H') as (? & ?). split; [now right | assumption]. }
  destruct (decide (y = sessionId c)); [now apply rec|].
  destruct (decide (y ∈ cand)); [|now apply rec].
  destruct (reg_get reg y) as [o|] eqn:G; [|now apply rec].
  destruct (decide (mode o = mode c)); [|now apply rec].
  injection H as <- <-. repeat split; try assumption. left.
Qed.

Lemma scanFifo_Some reg c w sid other :
  scanFifo reg c w = Some (sid, other) →
  sid ∈ w ∧ sid ≠ sessionId c
  ∧ reg_get reg sid = Some other ∧ mode other = mode c.
Proof.
  induction w as [|y w IH]; simpl; [discriminate|].
  intros H.
  assert (rec : scanFifo reg c w = Some (sid, other) →
                sid ∈ y :: w ∧ sid ≠ sessionId c
                ∧ reg_get reg sid = Some other ∧ mode other = mode c).
  { intros H'. destruct (IH H') as (? & ?). split; [now right | assumption]. }
  destruct (decide (y = sessionId c)); [now apply rec|].
  destruct (reg_get reg y) as [o|] eqn:G; [|now apply rec].
  destruct (decide (mode o = mode c)); [|now apply rec].
  injection H as <- <-. repeat split; try assumption. left.
Qed.

Lemma scanCandidates_skip cand reg c y w :
  ¬ eligible cand reg c y →
  scanCandidates cand reg c (y :: w) = scanCandidates cand reg c w.
Proof.
  intros N. simpl.
  destruct (decide (y = sessionId c)); [reflexivity|].
  destruct (decide (y ∈ cand)); [|reflexivity].
  destruct (reg_get reg y) as [o|] eqn:G; [|reflexivity].
  destruct (decide (mode o = mode c)); [|reflexivity].
  exfalso. apply N. repeat split; eauto.
Qed.

Lemma scanCandidates_first cand reg c pre sid post other :
  (∀ x, x ∈ pre → ¬ eligible cand reg c x) →
  sid ≠ sessionId c → sid ∈ cand →
  reg_get reg sid = Some other → mode other = mode c →
  scanCandidates cand reg c (pre ++ sid :: post) = Some (sid, other).
Proof.
  intros Hpre Hne Hin Hget Hmode.
  induction pre as [|y pre IH].
  - simpl. rewrite decide_False by assumption.
    rewrite decide_True by assumption. rewrite Hget.
    now rewrite decide_True by assumption.
  - change ((y :: pre) ++ sid :: post) with (y :: (pre ++ sid :: post)).
    rewrite scanCandidates_skip.
    + apply IH. intros x Hx. apply Hpre. now right.
    + apply Hpre. left.
Qed.

(** *** The candidate set *)

Lemma elem_of_candFold sid pools (ints : list string) (acc : gset string) x :
  x ∈ foldl (candAdd sid pools) acc ints ↔
  x ∈ acc ∨ (x ≠ sid ∧ ∃ i S, i ∈ ints ∧ pools !! toLowerCase i = Some S ∧ x ∈ S).
Proof.
  revert acc. induction ints as [|i ints IH]; intros acc; simpl.
  - split; [now left|]. intros [H | (_ & i & S & Hi & _)]; [assumption|].
    now apply elem_of_nil in Hi.
  - rewrite IH. unfold candAdd.
    destruct (pools !! toLowerCase i) as [S0|] eqn:E.
    + split.
      * intros [H | (Hne & j & S & Hj & Hl & Hx)].
        -- apply elem_of_union in H as [H | H]; [now left|].
           apply elem_of_difference in H as [H1 H2]. right. split.
           ++ intros ->. apply H2. now apply elem_of_singleton.
           ++ exists i, S0. split; [left | now split].
        -- right. split; [assumption|]. exists j, S. split; [now right | now split].
      * intros [H | (Hne & j & S & Hj & Hl & Hx)].
        -- left. apply elem_of_union. now left.
        -- apply elem_of_cons in Hj as [-> | Hj].
           ++ left. rewrite E in Hl. injection Hl as ->.
              apply elem_of_union. right. apply elem_of_difference.
              split; [assumption|]. now rewrite elem_of_singleton.
           ++ right. split; [assumption|]. exists j, S. now repeat split.
    + split.
      * intros [H | (Hne & j & S & Hj & Hl & Hx)]; [now left|].
        right. split; [assumption|]. exists j, S. split; [now right | now split].
      * intros [H | (Hne & j & S & Hj & Hl & Hx)]; [now left|].
        apply elem_of_cons in Hj as [-> | Hj]; [congruence|].
        right. split; [assumption|]. exists j, S. now repeat split.
Qed.

(** The candidates are the other members of the pools the client's
    interests name. *)
Lemma elem_of_candidateSet q c x :
  x ∈ candidateSet q c ↔
  x ≠ sessionId c
  ∧ ∃ i S, i ∈ interests c
           ∧ poolsOf (mode c) q !! toLowerCase i = Some S ∧ x ∈ S.
Proof.
  unfold candidateSet. rewrite elem_of_candFold. split.
  - intros [H | H]; [|exact H]. now apply not_elem_of_empty in H.
  - intros H. now right.
Qed.

Lemma candidateSet_not_self q c : sessionId c ∉ candidateSet q c.
Proof. rewrite elem_of_candidateSet. intros [H _]. now apply H. Qed.

Lemma candidateSet_size_pos q c x : x ∈ candidateSet q c → 0 < size (candidateSet q c).
Proof.
  intros H. destruct (decide (size (candidateSet q c) = 0)) as [E|E]; [|lia].
  apply size_empty_inv in E. apply leibniz_equiv in E. rewrite E in H.
  now apply not_elem_of_empty in H.
Qed.

(** *** What a successful [tryMatch] returns *)

Lemma tryMatch_Some q c reg p :
  (tryMatch q c reg).1 = Some p →
  ∃ other,
    pair_a p = sessionId c
    ∧ pair_b p ∈ waitingOf (mode c) q
    ∧ pair_b p ≠ sessionId c
    ∧ reg_get reg (pair_b p) = Some other
    ∧ mode other = mode c
    ∧ (tryMatch q c reg).2 = removeFromQueues (removeFromQueues q c) other.
Proof.
  unfold tryMatch.
  destruct (decide (0 < size (candidateSet q c))) as [Hpos|Hpos].
  - destruct (scanCandidates _ reg c _) as [[sid other]|] eqn:E1.
    + simpl. intros [= <-]. apply scanCandidates_Some in E1 as (? & ? & ? & ? & ?).
      exists other. simpl. now repeat split.
    + destruct (scanFifo reg c _) as [[sid other]|] eqn:E2; simpl; [|discriminate].
      intros [= <-]. apply scanFifo_Some in E2 as (? & ? & ? & ?).
      exists other. simpl. now repeat split.
  - destruct (scanFifo reg c _) as [[sid other]|] eqn:E2; simpl; [|discriminate].
    intros [= <-]. apply scanFifo_Some in E2 as (? & ? & ? & ?).
    exists other. simpl. now repeat split.
Qed.

End Matchmaking.

(** C10.  A pair returned by [tryMatch] names the requesting session first
    and, as partner, an id taken from the mode FIFO that differs from the
    requester's, is present in the registry and is registered there with the
    requester's mode. *)
Theorem tryMatch_partner_valid (q : MatchmakingQueues) (c : ClientInfo)
  (reg : Registry) (p : MatchPair) :
  (tryMatch q c reg).1 = Some p →
  pair_a p = sessionId c
  ∧ pair_b p ≠ sessionId c
  ∧ pair_b p ∈ waitingOf (mode c) q
  ∧ ∃ other, reg_get reg (pair_b p) = Some other ∧ mode other = mode c.
Proof.
  intros H. destruct (tryMatch_Some q c reg p H) as (other & ? & ? & ? & ? & ? & _).
  repeat split; try assumption. now exists other.
Qed.


(** ** Interest-first matching *)

(** C2 (as the code has it).  When the candidate set holds an entry of the
    mode FIFO that is registered with the requester's mode, [tryMatch] returns
    the earliest such entry: FIFO entries before it that are not candidates
    (sessions without a shared interest) are passed over, and so are
    candidates that are not registered with that mode. *)
Theorem tryMatch_earliest_eligible_candidate
  (q : MatchmakingQueues) (c : ClientInfo) (reg : Registry)
  (pre post : list string) (sid : string) (other : ClientInfo) :
  waitingOf (mode c) q = pre ++ sid :: post →
  sid ∈ candidateSet q c →
  reg_get reg sid = Some other →
  mode other = mode c →
  (∀ x, x ∈ pre → ¬ eligible (candidateSet q c) reg c x) →
  (tryMatch q c reg).1 = Some (mkPair (sessionId c) sid).
Proof.
  intros Hw Hin Hget Hmode Hpre. unfold tryMatch.
  rewrite decide_True by (eapply candidateSet_size_pos; eassumption).
  rewrite Hw.
  rewrite (scanCandidates_first _ reg c pre sid post other); try assumption.
  - reflexivity.
  - intros ->. now apply (candidateSet_not_self q c).
Qed.


(** ** Enqueueing and removal *)

Section Pools.

Implicit Types (pools : gmap string (gset string)) (ints : list string).
Implicit Types (sid k : string) (w : list string).

Lemma lookup_poolAdd sid pools i k :
  poolAdd sid pools i !! k =
  if decide (k ≠ "" ∧ k = poolKey i)
  then Some (default ∅ (pools !! k) ∪ {[sid]}) else pools !! k.
Proof.
  unfold poolAdd. fold (poolKey i).
  destruct (decide (poolKey i = "")) as [E|E].
  - rewrite decide_False; [reflexivity|]. intros [H1 H2]. congruence.
  - destruct (decide (k = poolKey i)) as [->|N].
    + rewrite lookup_insert_eq. now rewrite decide_True.
    + rewrite lookup_insert_ne by congruence.
      rewrite decide_False; [reflexivity|]. now intros [_ ?].
Qed.

Lemma lookup_poolAdd_fold sid ints pools k :
  foldl (poolAdd sid) pools ints !! k =
  if decide (k ≠ "" ∧ k ∈ poolKey <$> ints)
  then Some (default ∅ (pools !! k) ∪ {[sid]}) else pools !! k.
Proof.
  revert pools. induction ints as [|i ints IH]; intros pools; simpl.
  - rewrite decide_False; [reflexivity|]. intros [_ H]. now apply elem_of_nil in H.
  - rewrite IH, lookup_poolAdd.
    destruct (decide (k ≠ "" ∧ k = poolKey i)) as [[H1 H2]|N1];
      destruct (decide (k ≠ "" ∧ k ∈ poolKey <$> ints)) as [[H3 H4]|N2].
    + rewrite decide_True by (split; [assumption | subst k; left]).
      simpl. f_equal. set_solver.
    + rewrite decide_True by (split; [assumption | subst k; left]). reflexivity.
    + rewrite decide_True by (split; [assumption | now right]). reflexivity.
    + rewrite decide_False; [reflexivity|].
      intros [H5 H6]. apply elem_of_cons in H6 as [H6|H6]; [apply N1 | apply N2];
        now split.
Qed.

(** The pool part of [enqueueClient] is idempotent: pools are sets. *)
Lemma poolAdd_fold_idem sid ints pools :
  foldl (poolAdd sid) (foldl (poolAdd sid) pools ints) ints
  = foldl (poolAdd sid) pools ints.
Proof.
  apply map_eq. intros k. rewrite !lookup_poolAdd_fold.
  case_decide; [|reflexivity]. simpl. f_equal. set_solver.
Qed.

Lemma strip_idem sid o : strip sid (strip sid o) = strip sid o.
Proof.
  destruct o as [S|]; simpl; [|reflexivity].
  destruct (decide (size (S ∖ {[sid]}) = 0)) as [E|E]; simpl; [reflexivity|].
  assert (Heq : S ∖ {[sid]} ∖ {[sid]} = S ∖ {[sid]}) by set_solver.
  rewrite Heq. now rewrite decide_False.
Qed.

Lemma lookup_poolRemove sid pools i k :
  poolRemove sid pools i !! k =
  if decide (k = toLowerCase i) then strip sid (pools !! k) else pools !! k.
Proof.
  unfold poolRemove.
  destruct (decide (k = toLowerCase i)) as [->|N].
  - destruct (pools !! toLowerCase i) as [S|] eqn:E; simpl.
    + destruct (decide (size (S ∖ {[sid]}) = 0)).
      * apply lookup_delete_eq.
      * apply lookup_insert_eq.
    + assumption.
  - destruct (pools !! toLowerCase i) as [S|] eqn:E; [|reflexivity].
    destruct (decide (size (S ∖ {[sid]}) = 0)).
    + now rewrite lookup_delete_ne.
    + now rewrite lookup_insert_ne.
Qed.

Lemma lookup_poolRemove_fold sid ints pools k :
  foldl (poolRemove sid) pools ints !! k =
  if decide (k ∈ toLowerCase <$> ints) then strip sid (pools !! k) else pools !! k.
Proof.
  revert pools. induction ints as [|i ints IH]; intros pools.
  - rewrite decide_False; [reflexivity|]. apply not_elem_of_nil.
  - cbn [foldl]. rewrite IH, lookup_poolRemove, fmap_cons.
    destruct (decide (k ∈ toLowerCase <$> ints)) as [H2|N2];
      destruct (decide (k = toLowerCase i)) as [E|N1].
    + rewrite decide_True by (apply elem_of_cons; auto). apply strip_idem.
    + rewrite decide_True by (apply elem_of_cons; auto). reflexivity.
    + rewrite decide_True by (apply elem_of_cons; auto). reflexivity.
    + rewrite decide_False; [reflexivity|].
      intros H. apply elem_of_cons in H as [H|H]; contradiction.
Qed.

Lemma strip_Some sid o S :
  strip sid o = Some S → ∃ S0, o = Some S0 ∧ S ⊆ S0 ∧ sid ∉ S.
Proof.
  destruct o as [S0|]; simpl; [|discriminate].
  case_decide; [discriminate|]. intros [= <-]. exists S0. set_solver.
Qed.

(** A pool that survives the removal loop is a part of what it was, and
    [sid] is gone from it when one of the interests names it. *)
Lemma poolRemove_fold_Some sid ints pools k S :
  foldl (poolRemove sid) pools ints !! k = Some S →
  ∃ S0, pools !! k = Some S0 ∧ S ⊆ S0
        ∧ (k ∈ toLowerCase <$> ints → sid ∉ S).
Proof.
  rewrite lookup_poolRemove_fold. case_decide as Hk.
  - intros H. apply strip_Some in H as (S0 & ? & ? & ?). exists S0. auto.
  - intros H. exists S. split; [assumption|]. split; [reflexivity | contradiction].
Qed.

Lemma elem_of_removeFirst x sid w : x ∈ removeFirst sid w → x ∈ w.
Proof.
  induction w as [|y w IH]; simpl; [trivial|].
  case_decide.
  - intros Hx. now right.
  - intros Hx. apply elem_of_cons in Hx as [->|Hx]; [left | right; auto].
Qed.

Lemma NoDup_removeFirst sid w : NoDup w → NoDup (removeFirst sid w).
Proof.
  induction 1 as [|y w Hy Hw IH]; simpl; [constructor|].
  case_decide; [assumption|].
  constructor; [|assumption]. intros H'. apply Hy. eapply elem_of_removeFirst, H'.
Qed.

Lemma removeFirst_gone sid w : NoDup w → sid ∉ removeFirst sid w.
Proof.
  induction 1 as [|y w Hy Hw IH]; simpl; [apply not_elem_of_nil|].
  case_decide as E; [now subst y|].
  intros Hx. apply elem_of_cons in Hx as [Hx|Hx]; [congruence | contradiction].
Qed.

End Pools.

(** C6 (as the code has it).  [enqueueClient] has no guard: it appends the
    session id to the tail of the mode FIFO whether or not the id is already
    there, so enqueueing a queued session leaves the FIFO with the id twice.
    Only the interest pools, being sets, are unchanged by the repetition. *)
Theorem enqueueClient_appends_again (q : MatchmakingQueues) (c : ClientInfo) :
  sessionId c ∈ waitingOf (mode c) q →
  let q' := enqueueClient q c in
  waitingOf (mode c) q' = waitingOf (mode c) q ++ [sessionId c]
  ∧ ¬ NoDup (waitingOf (mode c) q')
  ∧ poolsOf (mode c) (enqueueClient q' c) = poolsOf (mode c) q'.
Proof.
  intros Hin q'. subst q'. unfold enqueueClient.
  rewrite !waitingOf_withMode, !poolsOf_withMode. split; [reflexivity|]. split.
  - intros H. apply NoDup_app in H as (_ & H & _).
    apply (H (sessionId c) Hin). left.
  - apply poolAdd_fold_idem.
Qed.


(** ** Removal of a matched pair *)

Lemma enqueueClient_waiting (q : MatchmakingQueues) (c : ClientInfo) :
  waitingOf (mode c) (enqueueClient q c) = waitingOf (mode c) q ++ [sessionId c].
Proof. unfold enqueueClient. apply waitingOf_withMode. Qed.

Lemma removeFromQueues_waiting (q : MatchmakingQueues) (c : ClientInfo) :
  waitingOf (mode c) (removeFromQueues q c)
  = removeFirst (sessionId c) (waitingOf (mode c) q).
Proof. unfold removeFromQueues. apply waitingOf_withMode. Qed.

Lemma removeFromQueues_pools (q : MatchmakingQueues) (c : ClientInfo) :
  poolsOf (mode c) (removeFromQueues q c)
  = foldl (poolRemove (sessionId c)) (poolsOf (mode c) q) (interests c).
Proof. unfold removeFromQueues. apply poolsOf_withMode. Qed.

Lemma removeFromQueues_other_mode (q : MatchmakingQueues) (c : ClientInfo) m :
  m ≠ mode c →
  waitingOf m (removeFromQueues q c) = waitingOf m q
  ∧ poolsOf m (removeFromQueues q c) = poolsOf m q.
Proof.
  intros N. unfold removeFromQueues.
  now rewrite waitingOf_withMode_ne, poolsOf_withMode_ne.
Qed.

(** What the two calls of [removeFromQueues] in a successful [tryMatch]
    achieve: one FIFO occurrence of each id is taken out and each is deleted
    from the pools its own interests name.  So when the mode FIFO holds no
    id twice, the partner's registry record carries the id it is filed
    under, and both sessions are pooled by their interests only, neither of
    the two is left in the FIFO or in any pool of that mode; the structures
    of the other mode are not touched. *)
Lemma tryMatch_removes_both (q : MatchmakingQueues) (c : ClientInfo)
  (reg : Registry) (p : MatchPair) (other : ClientInfo) :
  (tryMatch q c reg).1 = Some p →
  NoDup (waitingOf (mode c) q) →
  reg_get reg (pair_b p) = Some other →
  sessionId other = pair_b p →
  pooledByInterests (poolsOf (mode c) q) c →
  pooledByInterests (poolsOf (mode c) q) other →
  let q' := (tryMatch q c reg).2 in
  (pair_a p ∉ waitingOf (mode c) q')
  ∧ (pair_b p ∉ waitingOf (mode c) q')
  ∧ (∀ k S, poolsOf (mode c) q' !! k = Some S → (pair_a p ∉ S) ∧ (pair_b p ∉ S))
  ∧ (∀ m, m ≠ mode c → waitingOf m q' = waitingOf m q ∧ poolsOf m q' = poolsOf m q).
Proof.
  intros Hp Hnd Hget Hid Hc Ho q'. subst q'.
  destruct (tryMatch_Some q c reg p Hp) as (o & Ha & _ & _ & Hget' & Hm & ->).
  rewrite Hget in Hget'. injection Hget' as <-.
  rewrite Ha, <- Hid. clear Hp Hget Ha Hid p.
  rewrite <- Hm. rewrite removeFromQueues_waiting, removeFromQueues_pools.
  rewrite Hm. rewrite removeFromQueues_waiting, removeFromQueues_pools.
  split; [|split; [|split]].
  - intros H. apply elem_of_removeFirst in H. now apply removeFirst_gone in H.
  - apply removeFirst_gone. now apply NoDup_removeFirst.
  - intros k S H.
    apply poolRemove_fold_Some in H as (S1 & H1 & Hsub1 & Hgone1).
    apply poolRemove_fold_Some in H1 as (S0 & H0 & Hsub0 & Hgone0).
    split.
    + intros Hin. apply Hgone0; [|now apply Hsub1].
      apply (Hc k S0 H0). now apply Hsub0, Hsub1.
    + intros Hin. apply Hgone1; [|assumption].
      apply (Ho k S0 H0). now apply Hsub0, Hsub1.
  - intros m N.
    destruct (removeFromQueues_other_mode (removeFromQueues q c) other m) as [-> ->];
      [congruence|].
    now apply removeFromQueues_other_mode.
Qed.


(** ** The session registry *)

Section RegistryFacts.

Implicit Types (reg : Registry) (k sid : string) (v c : ClientInfo).
Implicit Types (f : ClientInfo → ClientInfo).

Lemma reg_get_set reg k v k' :
  reg_get (reg_set reg k v) k' = if decide (k = k') then Some v else reg_get reg k'.
Proof.
  induction reg as [|[k0 v0] reg IH]; simpl.
  - repeat case_decide; congruence.
  - destruct (decide (k0 = k)) as [->|N]; simpl.
    + repeat case_decide; congruence.
    + rewrite IH. repeat case_decide; congruence.
Qed.

Lemma reg_get_update reg k f k' :
  reg_get (reg_update reg k f) k' =
  if decide (k = k') then f <$> reg_get reg k' else reg_get reg k'.
Proof.
  induction reg as [|[k0 v0] reg IH]; simpl.
  - now case_decide.
  - destruct (decide (k0 = k)) as [->|N]; simpl.
    + repeat case_decide; simpl; congruence.
    + rewrite IH. repeat case_decide; simpl; congruence.
Qed.

Lemma reg_update_keys reg k f : (reg_update reg k f).*1 = reg.*1.
Proof.
  induction reg as [|[k0 v0] reg IH]; [reflexivity|].
  cbn [reg_update]. case_decide; rewrite !fmap_cons; [reflexivity|].
  now rewrite IH.
Qed.

Lemma reg_get_Some_key reg k v : reg_get reg k = Some v → k ∈ reg.*1.
Proof.
  induction reg as [|[k0 v0] reg IH]; [discriminate|].
  cbn [reg_get]. rewrite fmap_cons.
  case_decide; [subst; left | right; auto].
Qed.

Lemma reg_set_keys_present reg k v : k ∈ reg.*1 → (reg_set reg k v).*1 = reg.*1.
Proof.
  induction reg as [|[k0 v0] reg IH].
  - intros H. now apply elem_of_nil in H.
  - cbn [reg_set]. rewrite fmap_cons. intros H.
    case_decide as E; rewrite !fmap_cons; [now subst|].
    rewrite IH; [reflexivity|]. apply elem_of_cons in H as [H|H]; simpl in *; congruence.
Qed.

Lemma reg_set_keys_absent reg k v : k ∉ reg.*1 → (reg_set reg k v).*1 = reg.*1 ++ [k].
Proof.
  induction reg as [|[k0 v0] reg IH]; [reflexivity|].
  cbn [reg_set]. rewrite fmap_cons. intros H.
  rewrite decide_False by (intros ->; apply H; left).
  rewrite !fmap_cons. rewrite IH; [reflexivity|]. intros H'. apply H. now right.
Qed.

Lemma reg_delete_keys_sub reg k x : x ∈ (reg_delete reg k).*1 → x ∈ reg.*1.
Proof.
  induction reg as [|[k0 v0] reg IH]; [trivial|].
  cbn [reg_delete]. case_decide; rewrite !fmap_cons.
  - intros Hx. now right.
  - intros Hx. apply elem_of_cons in Hx as [->|Hx]; [left | right; auto].
Qed.

Lemma keyed_nil : keyed [].
Proof. split; constructor. Qed.

Lemma keyed_get reg k v : keyed reg → reg_get reg k = Some v → sessionId v = k.
Proof.
  intros [_ H]. induction reg as [|[k0 v0] reg IH]; simpl; [discriminate|].
  apply Forall_cons in H as [H0 H]. case_decide.
  - intros [= <-]. simpl in H0. congruence.
  - now apply IH.
Qed.

Lemma keyed_set reg k v : keyed reg → sessionId v = k → keyed (reg_set reg k v).
Proof.
  intros [Hnd Hall] Hv. split.
  - destruct (decide (k ∈ reg.*1)).
    + now rewrite reg_set_keys_present.
    + rewrite reg_set_keys_absent by assumption.
      apply NoDup_app. split; [assumption|]. split.
      * intros x Hx Hx'. apply list_elem_of_singleton in Hx'. now subst.
      * apply NoDup_singleton.
  - clear Hnd. induction reg as [|[k0 v0] reg IH]; simpl.
    + constructor; [assumption | constructor].
    + apply Forall_cons in Hall as [H0 Hall].
      case_decide; constructor; auto.
Qed.

Lemma keyed_update reg k p : keyed reg → keyed (reg_update reg k (setPairedWith p)).
Proof.
  intros [Hnd Hall]. split; [now rewrite reg_update_keys|].
  clear Hnd. induction reg as [|[k0 v0] reg IH]; simpl; [constructor|].
  apply Forall_cons in Hall as [H0 Hall].
  case_decide; constructor; auto.
Qed.

Lemma keyed_delete reg k : keyed reg → keyed (reg_delete reg k).
Proof.
  intros [Hnd Hall]. induction reg as [|[k0 v0] reg IH]; [split; constructor|].
  apply Forall_cons in Hall as [H0 Hall]. rewrite fmap_cons in Hnd.
  apply NoDup_cons in Hnd as [Hk Hnd]. cbn [reg_delete].
  case_decide; [now split|].
  destruct (IH Hnd Hall) as [IH1 IH2]. split; [|now constructor].
  rewrite fmap_cons. constructor; [|assumption].
  intros H'. apply Hk. eapply reg_delete_keys_sub, H'.
Qed.

Lemma reg_get_delete reg k k' :
  keyed reg →
  reg_get (reg_delete reg k) k' = if decide (k = k') then None else reg_get reg k'.
Proof.
  intros [Hnd _]. induction reg as [|[k0 v0] reg IH]; cbn [reg_delete reg_get].
  - now case_decide.
  - rewrite fmap_cons in Hnd. apply NoDup_cons in Hnd as [Hk Hnd].
    destruct (decide (k0 = k)) as [->|N].
    + destruct (decide (k = k')) as [<-|N'].
      * destruct (reg_get reg k) eqn:E; [|reflexivity].
        exfalso. apply Hk. eapply reg_get_Some_key, E.
      * reflexivity.
    + cbn [reg_get]. rewrite (IH Hnd). repeat case_decide; congruence.
Qed.

Lemma findByWs_get reg conn sid c :
  keyed reg → findByWs reg conn = Some (sid, c) →
  reg_get reg sid = Some c ∧ ws c = conn.
Proof.
  intros [Hnd _]. induction reg as [|[k0 v0] reg IH]; [discriminate|].
  cbn [findByWs reg_get]. rewrite fmap_cons in Hnd.
  apply NoDup_cons in Hnd as [Hk Hnd].
  case_decide as E.
  - intros [= <- <-]. now rewrite decide_True.
  - intros H. destruct (IH Hnd H) as [Hg Hw]. split; [|assumption].
    rewrite decide_False; [assumption|].
    intros ->. apply Hk. eapply reg_get_Some_key, Hg.
Qed.

End RegistryFacts.

(** ** The handlers *)

Section Handlers.

Implicit Types (s : Server) (reg : Registry) (c : ClientInfo) (sid k : string).

Lemma sameSession_refl c : sameSession c c.
Proof. now repeat split. Qed.

Lemma sameSession_setPairedWith p c : sameSession c (setPairedWith p c).
Proof. now repeat split. Qed.

Lemma sameSession_trans r1 r2 r3 :
  sameSession r1 r2 → sameSession r2 r3 → sameSession r1 r3.
Proof. unfold sameSession. intros (?&?&?&?) (?&?&?&?). repeat split; congruence. Qed.

Lemma reg_update_sameSession reg k p k' r :
  reg_get reg k' = Some r →
  ∃ r', reg_get (reg_update reg k (setPairedWith p)) k' = Some r' ∧ sameSession r r'.
Proof.
  intros H. rewrite reg_get_update, H. case_decide; simpl.
  - eexists. split; [reflexivity | apply sameSession_setPairedWith].
  - eexists. split; [reflexivity | apply sameSession_refl].
Qed.

(** [settle] touches the registry through [pairedWith] only, leaves the
    queues alone, and sends [paired] or [waiting]. *)
Lemma settle_keys attempt conn s :
  (sessionIdToClient (settle attempt conn s)).*1 = (sessionIdToClient s).*1.
Proof.
  unfold settle. destruct attempt as [p|]; [|reflexivity].
  destruct (reg_get _ (pair_a p)) as [a|]; [|reflexivity].
  destruct (reg_get _ (pair_b p)) as [b|]; [|reflexivity].
  cbn [send setRegistry sessionIdToClient]. now rewrite !reg_update_keys.
Qed.

Lemma settle_keyed attempt conn s :
  keyed (sessionIdToClient s) → keyed (sessionIdToClient (settle attempt conn s)).
Proof.
  intros K. unfold settle. destruct attempt as [p|]; [|assumption].
  destruct (reg_get _ (pair_a p)) as [a|]; [|assumption].
  destruct (reg_get _ (pair_b p)) as [b|]; [|assumption].
  cbn [send setRegistry sessionIdToClient]. now repeat apply keyed_update.
Qed.

Lemma settle_sameSession attempt conn s k r :
  reg_get (sessionIdToClient s) k = Some r →
  ∃ r', reg_get (sessionIdToClient (settle attempt conn s)) k = Some r'
        ∧ sameSession r r'.
Proof.
  intros H. unfold settle.
  assert (Hsame : ∃ r', reg_get (sessionIdToClient s) k = Some r' ∧ sameSession r r')
    by (exists r; split; [assumption | apply sameSession_refl]).
  destruct attempt as [p|]; [|assumption].
  destruct (reg_get _ (pair_a p)) as [a|]; [|assumption].
  destruct (reg_get _ (pair_b p)) as [b|]; [|assumption].
  cbn [send setRegistry sessionIdToClient].
  destruct (reg_update_sameSession (sessionIdToClient s) (pair_a p)
              (Some (sessionId b)) k r H) as (r1 & H1 & S1).
  destruct (reg_update_sameSession _ (pair_b p) (Some (sessionId a)) k r1 H1)
    as (r2 & H2 & S2).
  exists r2. split; [assumption | eapply sameSession_trans; eassumption].
Qed.

Lemma settle_queues attempt conn s : queues (settle attempt conn s) = queues s.
Proof.
  unfold settle. destruct attempt as [p|]; [|reflexivity].
  destruct (reg_get _ (pair_a p)) as [a|]; [|reflexivity].
  now destruct (reg_get _ (pair_b p)) as [b|].
Qed.

Lemma noNewError_refl s : noNewError s s.
Proof. now intros conn e. Qed.

Lemma noNewError_trans s1 s2 s3 :
  noNewError s1 s2 → noNewError s2 s3 → noNewError s1 s3.
Proof. intros H1 H2 conn e H. now apply H1, H2. Qed.

Lemma noNewError_send conn m s :
  (∀ e, m ≠ Error e) → noNewError s (send conn m s).
Proof.
  intros Hm cn e H. cbn [send outbox] in H.
  apply elem_of_app in H as [H|H]; [assumption|].
  apply list_elem_of_singleton in H. injection H as _ E.
  symmetry in E. now apply Hm in E.
Qed.

Lemma noNewError_outbox s s' : outbox s' = outbox s → noNewError s s'.
Proof. intros E conn e. now rewrite E. Qed.

Lemma settle_noNewError attempt conn s : noNewError s (settle attempt conn s).
Proof.
  unfold settle. destruct attempt as [p|].
  - destruct (reg_get _ (pair_a p)) as [a|]; [|apply noNewError_refl].
    destruct (reg_get _ (pair_b p)) as [b|]; [|apply noNewError_refl].
    eapply noNewError_trans; [|apply noNewError_send; discriminate].
    eapply noNewError_trans; [|apply noNewError_send; discriminate].
    now apply noNewError_outbox.
  - apply noNewError_send. discriminate.
Qed.

Lemma matchFor_keys c conn s :
  (sessionIdToClient (matchFor c conn s)).*1 = (sessionIdToClient s).*1.
Proof.
  unfold matchFor. destruct (tryMatch _ c _) as [attempt q].
  now rewrite settle_keys.
Qed.

Lemma matchFor_keyed c conn s :
  keyed (sessionIdToClient s) → keyed (sessionIdToClient (matchFor c conn s)).
Proof.
  intros K. unfold matchFor. destruct (tryMatch _ c _) as [attempt q].
  now apply settle_keyed.
Qed.

Lemma matchFor_sameSession c conn s k r :
  reg_get (sessionIdToClient s) k = Some r →
  ∃ r', reg_get (sessionIdToClient (matchFor c conn s)) k = Some r'
        ∧ sameSession r r'.
Proof.
  intros H. unfold matchFor. destruct (tryMatch _ c _) as [attempt q].
  now apply settle_sameSession.
Qed.

Lemma matchFor_noNewError c conn s : noNewError s (matchFor c conn s).
Proof.
  unfold matchFor. destruct (tryMatch _ c _) as [attempt q].
  eapply noNewError_trans; [|apply settle_noNewError].
  now apply noNewError_outbox.
Qed.

Lemma attemptMatch_keyed sid conn s :
  keyed (sessionIdToClient s) → keyed (sessionIdToClient (attemptMatch sid conn s)).
Proof.
  intros K. unfold attemptMatch.
  destruct (reg_get _ sid); [now apply matchFor_keyed | assumption].
Qed.

(** The guard of the join closure: nothing happens for a session that is no
    longer registered. *)
Lemma attemptMatch_unregistered sid conn s :
  reg_get (sessionIdToClient s) sid = None → attemptMatch sid conn s = s.
Proof. intros H. unfold attemptMatch. now rewrite H. Qed.

Lemma dropPeer_keys c note requeue s :
  (sessionIdToClient (dropPeer c note requeue s)).*1 = (sessionIdToClient s).*1.
Proof.
  unfold dropPeer. destruct (truthy (pairedWith c)) as [p|]; [|reflexivity].
  destruct (reg_get _ p) as [peer|]; [|reflexivity].
  destruct requeue; cbn [send setRegistry setQueues sessionIdToClient];
    now rewrite reg_update_keys.
Qed.

Lemma dropPeer_keyed c note requeue s :
  keyed (sessionIdToClient s) →
  keyed (sessionIdToClient (dropPeer c note requeue s)).
Proof.
  intros K. unfold dropPeer. destruct (truthy (pairedWith c)) as [p|]; [|assumption].
  destruct (reg_get _ p) as [peer|]; [|assumption].
  destruct requeue; cbn [send setRegistry setQueues sessionIdToClient];
    now apply keyed_update.
Qed.

(** The three outcomes of [dropPeer]. *)
Lemma dropPeer_unpaired c note requeue s :
  truthy (pairedWith c) = None → dropPeer c note requeue s = s.
Proof. intros H. unfold dropPeer. now rewrite H. Qed.

Lemma dropPeer_absent c note requeue s p :
  truthy (pairedWith c) = Some p → reg_get (sessionIdToClient s) p = None →
  dropPeer c note requeue s = s.
Proof. intros H1 H2. unfold dropPeer. now rewrite H1, H2. Qed.

Lemma dropPeer_paired c note requeue s p peer :
  truthy (pairedWith c) = Some p → reg_get (sessionIdToClient s) p = Some peer →
  dropPeer c note requeue s =
  {| sessionIdToClient := reg_update (sessionIdToClient s) p (setPairedWith None);
     queues := if requeue then enqueueClient (queues s) peer else queues s;
     reportsQueue := reportsQueue s;
     timers := timers s;
     outbox := outbox s ++ [(ws peer, Debug note)] |}.
Proof. intros H1 H2. unfold dropPeer. rewrite H1, H2. now destruct requeue. Qed.

(** The registry of the server is [keyed] at every step. *)
Lemma step_keyed s e :
  keyed (sessionIdToClient s) → keyed (sessionIdToClient (step s e)).
Proof.
  intros K. destruct e as [conn msg|conn|]; cbn [step].
  - destruct msg as [m sid ints|sid|sid|sid reason|kind to body|];
      cbn [handleMessage].
    + unfold handleJoin. destruct (negb (isValidUuidV4 sid)); [assumption|].
      destruct (parseMode m) as [md|]; [|assumption].
      assert (K' : keyed (reg_set (sessionIdToClient s) sid
                            (mkClient sid md (sanitizeInterests ints) conn None)))
        by now apply keyed_set.
      case_decide; [assumption|]. now apply attemptMatch_keyed.
    + unfold handleLeave. destruct (reg_get _ sid) as [c|]; [|assumption].
      cbn [setRegistry setQueues sessionIdToClient].
      now apply keyed_delete, dropPeer_keyed.
    + unfold handleNext. destruct (reg_get _ sid) as [c|]; [|assumption].
      assert (K' : keyed (sessionIdToClient
                match truthy (pairedWith c) with
                | None => s
                | Some _ =>
                    let s' := dropPeer c "peer_skipped" true s in
                    setRegistry
                      (reg_update (sessionIdToClient s') sid (setPairedWith None)) s'
                end)).
      { destruct (truthy (pairedWith c)); [|assumption].
        cbn [setRegistry sessionIdToClient]. now apply keyed_update, dropPeer_keyed. }
      cbv zeta. case_decide; [assumption|]. now apply matchFor_keyed.
    + unfold handleReport. cbn [pushReport sessionIdToClient].
      destruct (reg_get _ sid) as [c|]; [|assumption].
      destruct (truthy (pairedWith c)); [|assumption].
      cbn [setRegistry sessionIdToClient].
      now apply keyed_update, dropPeer_keyed.
    + unfold handleRelay. destruct (truthy to) as [t|]; [|assumption].
      now destruct (reg_get _ t).
    + assumption.
  - unfold handleClose. destruct (findByWs _ conn) as [[sid c]|]; [|assumption].
    cbn [setRegistry setQueues sessionIdToClient].
    now apply keyed_delete, dropPeer_keyed.
  - destruct (timers s) as [|t rest]; [assumption|].
    destruct t as [sid conn|c]; cbn [runTask].
    + now apply attemptMatch_keyed.
    + now apply matchFor_keyed.
Qed.

(** Invariant 1 of the data model: in every state the server reaches, the
    registry has one record per session id, filed under that id. *)
Lemma run_keyed es : keyed (sessionIdToClient (run initial es)).
Proof.
  unfold run. generalize keyed_nil. change [] with (sessionIdToClient initial).
  generalize initial. induction es as [|e es IH]; intros s K; [assumption|].
  cbn [foldl]. now apply IH, step_keyed.
Qed.

End Handlers.

(** ** Join with a session id that is already registered *)

(** C7 (as the code has it).  A valid join whose session id is already in the
    registry does not fail: the record under that id is replaced by the one
    built from the new message (mode, sanitized interests and connection of
    the new join), no [error] is sent, and the set of registered ids is what
    it was, so the id is still registered once.  When the join carries
    interests (its match attempt is deferred) the id has been appended to the
    mode FIFO once more. *)
Theorem join_replaces_record (conn : nat) (m : string) (md : ChatMode)
  (sid : string) (ints : option (list JsValue)) (s : Server) (old : ClientInfo) :
  isValidUuidV4 sid = true →
  parseMode m = Some md →
  reg_get (sessionIdToClient s) sid = Some old →
  let s' := handleJoin conn m sid ints s in
  (∃ r, reg_get (sessionIdToClient s') sid = Some r
        ∧ sameSession (mkClient sid md (sanitizeInterests ints) conn None) r)
  ∧ (sessionIdToClient s').*1 = (sessionIdToClient s).*1
  ∧ noNewError s s'
  ∧ (0 < length (sanitizeInterests ints) →
     waitingOf md (queues s') = waitingOf md (queues s) ++ [sid]).
Proof.
  intros Hv Hm Hold s'. subst s'. unfold handleJoin. rewrite Hv, Hm. cbn [negb].
  set (info := mkClient sid md (sanitizeInterests ints) conn None).
  set (s2 := setQueues _ _).
  assert (Hget : reg_get (sessionIdToClient s2) sid = Some info).
  { subst s2. cbn [setQueues setRegistry sessionIdToClient].
    rewrite reg_get_set. now rewrite decide_True. }
  assert (Hkeys : (sessionIdToClient s2).*1 = (sessionIdToClient s).*1).
  { subst s2. cbn [setQueues setRegistry sessionIdToClient].
    apply reg_set_keys_present. eapply reg_get_Some_key, Hold. }
  assert (Hout : noNewError s s2) by now apply noNewError_outbox.
  case_decide as Hlen.
  - split; [|split; [|split]]; try assumption.
    + exists info. split; [assumption | apply sameSession_refl].
    + intros _. subst s2. cbn [setTimeout setTimers setQueues setRegistry queues].
      apply (enqueueClient_waiting (queues s) info).
  - unfold attemptMatch. rewrite Hget. split; [|split; [|split]].
    + now apply matchFor_sameSession.
    + now rewrite matchFor_keys.
    + eapply noNewError_trans; [eassumption | apply matchFor_noNewError].
    + intros Hpos. contradiction.
Qed.


(** ** Report *)

(** C4 (as the code has it).  A report from a registered session files the
    report and closes the reporter's pairing, nothing more: the reporter stays
    in the registry (same id, mode, interests and connection) with its
    [pairedWith] cleared, no record is deleted, the queues and pools are as
    they were, and when the reporter was paired with a registered peer that
    peer's [pairedWith] is cleared and the peer is sent [peer_reported]. *)
Theorem report_keeps_reporter (sid reason : string) (s : Server) (c : ClientInfo) :
  reg_get (sessionIdToClient s) sid = Some c →
  let s' := handleReport sid reason s in
  reg_get (sessionIdToClient s') sid
    = Some (match truthy (pairedWith c) with
            | Some _ => setPairedWith None c
            | None => c
            end)
  ∧ (sessionIdToClient s').*1 = (sessionIdToClient s).*1
  ∧ queues s' = queues s
  ∧ reportsQueue s' = reportsQueue s ++ [(sid, reason)]
  ∧ (∀ p peer,
       truthy (pairedWith c) = Some p →
       reg_get (sessionIdToClient s) p = Some peer →
       (pairedWith <$> reg_get (sessionIdToClient s') p) = Some None
       ∧ outbox s' = outbox s ++ [(ws peer, Debug "peer_reported")]).
Proof.
  intros Hc s'. subst s'. unfold handleReport.
  cbn [pushReport sessionIdToClient]. rewrite Hc.
  destruct (truthy (pairedWith c)) as [p|] eqn:Hp.
  - destruct (reg_get (sessionIdToClient s) p) as [peer|] eqn:Hpeer.
    + rewrite (dropPeer_paired c _ _ (pushReport sid reason s) p peer Hp Hpeer).
      cbn [pushReport setRegistry sessionIdToClient queues reportsQueue outbox].
      rewrite !reg_update_keys, !reg_get_update, Hc.
      split; [|split; [|split; [|split]]]; try reflexivity.
      * repeat case_decide; try reflexivity; congruence.
      * intros p' peer' [= <-] Hpeer'. rewrite Hpeer in Hpeer'.
        injection Hpeer' as <-. rewrite !reg_get_update, Hpeer.
        split; [|reflexivity]. repeat case_decide; try reflexivity; congruence.
    + rewrite (dropPeer_absent c _ _ (pushReport sid reason s) p Hp Hpeer).
      cbn [pushReport setRegistry sessionIdToClient queues reportsQueue outbox].
      rewrite reg_update_keys, reg_get_update, Hc, decide_True by reflexivity.
      split; [|split; [|split; [|split]]]; try reflexivity.
      intros p' peer' [= <-] Hpeer'. congruence.
  - split; [|split; [|split; [|split]]]; try reflexivity.
    + exact Hc.
    + intros p peer Hp'. discriminate.
Qed.


(** ** Disconnect and leave *)

Lemma elem_of_removeFirst_ne (x sid : string) (w : list string) :
  x ≠ sid → x ∈ w → x ∈ removeFirst sid w.
Proof.
  intros N. induction w as [|y w IH]; simpl; [trivial|].
  intros H. apply elem_of_cons in H as [->|H].
  - rewrite decide_False by assumption. left.
  - case_decide; [assumption | right; auto].
Qed.

(** C5 (as the code has it).  The close of a connection deletes the first
    session registered on it and clears the peer's [pairedWith], and the
    registry it leaves is the one a leave of that session leaves.  When the
    session had no registered peer the queues, pools and messages agree as
    well.  When it had one, the close handler differs from leave in two ways:
    the peer is told [peer_disconnected] instead of [peer_left], and the peer
    is put back at the tail of its mode FIFO (and into its interest pools)
    before the closing session is removed from the queues. *)
Theorem close_is_leave_plus_requeue (conn : nat) (s : Server) (sid : string)
  (c : ClientInfo) :
  keyed (sessionIdToClient s) →
  findByWs (sessionIdToClient s) conn = Some (sid, c) →
  let sc := handleClose conn s in
  let sl := disconnectAsLeave conn s in
  sessionIdToClient sc = sessionIdToClient sl
  ∧ reg_get (sessionIdToClient sc) sid = None
  ∧ match truthy (pairedWith c) ≫= reg_get (sessionIdToClient s) with
    | None => queues sc = queues sl ∧ outbox sc = outbox sl
    | Some peer =>
        queues sl = removeFromQueues (queues s) c
        ∧ queues sc = removeFromQueues (enqueueClient (queues s) peer) c
        ∧ outbox sl = outbox s ++ [(ws peer, Debug "peer_left")]
        ∧ outbox sc = outbox s ++ [(ws peer, Debug "peer_disconnected")]
        ∧ (sessionId peer ≠ sid →
           (pairedWith <$> reg_get (sessionIdToClient sc) (sessionId peer)) = Some None
           ∧ sessionId peer ∈ waitingOf (mode peer) (queues sc))
    end.
Proof.
  intros K Hfind sc sl. subst sc sl.
  destruct (findByWs_get _ _ _ _ K Hfind) as [Hget _].
  pose proof (keyed_get _ _ _ K Hget) as Hid.
  unfold handleClose, disconnectAsLeave, handleLeave. rewrite Hfind, Hget.
  destruct (truthy (pairedWith c)) as [p|] eqn:Hp; cbn [mbind option_bind].
  - destruct (reg_get (sessionIdToClient s) p) as [peer|] eqn:Hpeer.
    + rewrite !(dropPeer_paired c _ _ s p peer Hp Hpeer).
      cbn [setRegistry setQueues sessionIdToClient queues outbox]. rewrite Hid.
      pose proof (keyed_update _ p None K) as K'.
      split; [reflexivity|]. split; [|repeat split].
      * rewrite reg_get_delete by assumption. now rewrite decide_True.
      * rewrite reg_get_delete by assumption. rewrite decide_False by congruence.
        rewrite reg_get_update, (keyed_get _ _ _ K Hpeer), Hpeer.
        now rewrite decide_True.
      * destruct (decide (mode peer = mode c)) as [E|E].
        -- rewrite E, removeFromQueues_waiting, <- E, enqueueClient_waiting.
           apply elem_of_removeFirst_ne; [congruence|].
           apply elem_of_app. right. left.
        -- destruct (removeFromQueues_other_mode
                       (enqueueClient (queues s) peer) c (mode peer)) as [-> _];
             [assumption|].
           rewrite enqueueClient_waiting. apply elem_of_app. right. left.
    + rewrite !(dropPeer_absent c _ _ s p Hp Hpeer).
      cbn [setRegistry setQueues sessionIdToClient queues outbox]. rewrite Hid.
      split; [reflexivity|]. split; [|now split].
      rewrite reg_get_delete by assumption. now rewrite decide_True.
  - rewrite !(dropPeer_unpaired c _ _ s Hp).
    cbn [setRegistry setQueues sessionIdToClient queues outbox]. rewrite Hid.
    split; [reflexivity|]. split; [|now split].
    rewrite reg_get_delete by assumption. now rewrite decide_True.
Qed.


(** * Further properties of the matchmaking queues *)

Section QueueFacts.

Implicit Types (q : MatchmakingQueues) (c other : ClientInfo) (reg : Registry).
Implicit Types (w pre post : list string) (pools : gmap string (gset string)).
Implicit Types (sid x k : string).

Lemma withMode_eta q m : withMode m (waitingOf m q) (poolsOf m q) q = q.
Proof. now destruct q, m. Qed.

Lemma removeFirst_absent sid w : sid ∉ w → removeFirst sid w = w.
Proof.
  induction w as [|y w IH]; [reflexivity|]. intros H. cbn [removeFirst].
  rewrite decide_False by (intros ->; apply H; left).
  f_equal. apply IH. intros H'. apply H. now right.
Qed.

Lemma removeFirst_app_absent sid w : sid ∉ w → removeFirst sid (w ++ [sid]) = w.
Proof.
  induction w as [|y w IH]; intros H.
  - cbn. now rewrite decide_True.
  - cbn [app removeFirst]. rewrite decide_False by (intros ->; apply H; left).
    f_equal. apply IH. intros H'. apply H. now right.
Qed.

Lemma removeFirst_filter sid w :
  filter (λ y, y ≠ sid) (removeFirst sid w) = filter (λ y, y ≠ sid) w.
Proof.
  induction w as [|y w IH]; [reflexivity|]. cbn [removeFirst].
  destruct (decide (y = sid)) as [->|N].
  - rewrite filter_cons_False; [reflexivity|]. intros H. now apply H.
  - rewrite !filter_cons_True by assumption. now rewrite IH.
Qed.

Lemma elem_of_removeFirst_iff x sid w :
  x ≠ sid → x ∈ removeFirst sid w ↔ x ∈ w.
Proof.
  intros N. split; [apply elem_of_removeFirst | now apply elem_of_removeFirst_ne].
Qed.

Lemma strip_inPool sid (o : option (gset string)) x :
  x ≠ sid → (∃ S, strip sid o = Some S ∧ x ∈ S) ↔ (∃ S, o = Some S ∧ x ∈ S).
Proof.
  intros N. destruct o as [S0|]; cbn [strip].
  - destruct (decide (size (S0 ∖ {[sid]}) = 0)) as [E|E].
    + apply size_empty_inv in E. split.
      * intros (S & H & _). discriminate.
      * intros (S & [= <-] & Hx). exfalso. set_solver.
    + split.
      * intros (S & [= <-] & Hx). exists S0. split; [reflexivity | set_solver].
      * intros (S & [= <-] & Hx). eexists. split; [reflexivity | set_solver].
  - split; intros (S & H & _); discriminate.
Qed.

Lemma poolRemove_fold_inPool sid (ints : list string) pools k x :
  x ≠ sid →
  inPool (foldl (poolRemove sid) pools ints) k x ↔ inPool pools k x.
Proof.
  intros N. unfold inPool. rewrite lookup_poolRemove_fold.
  case_decide; [now apply strip_inPool | reflexivity].
Qed.

Lemma poolAdd_fold_inPool sid (ints : list string) pools k x :
  inPool (foldl (poolAdd sid) pools ints) k x ↔
  inPool pools k x ∨ (x = sid ∧ k ≠ "" ∧ k ∈ poolKey <$> ints).
Proof.
  unfold inPool. rewrite lookup_poolAdd_fold. case_decide as Hk.
  - split.
    + intros (S & [= <-] & Hx). apply elem_of_union in Hx as [Hx|Hx].
      * left. destruct (pools !! k) as [S0|]; cbn in Hx; [eauto|].
        now apply not_elem_of_empty in Hx.
      * right. apply elem_of_singleton in Hx. now split.
    + intros [(S & HS & Hx) | (-> & _)].
      * rewrite HS. eexists. split; [reflexivity|]. cbn. set_solver.
      * eexists. split; [reflexivity|]. set_solver.
  - split; [now left|]. intros [H | (_ & H1 & H2)]; [assumption|].
    exfalso. apply Hk. now split.
Qed.

Lemma strip_nonempty sid (o : option (gset string)) S :
  strip sid o = Some S → S ≠ ∅.
Proof.
  destruct o as [S0|]; cbn [strip]; [|discriminate].
  case_decide as E; [discriminate|]. intros [= <-] H. apply E.
  rewrite H. apply size_empty.
Qed.

Lemma noEmptyPool_poolAdd_fold sid (ints : list string) pools :
  noEmptyPool pools → noEmptyPool (foldl (poolAdd sid) pools ints).
Proof.
  intros Hne k S. rewrite lookup_poolAdd_fold. case_decide.
  - intros [= <-]. set_solver.
  - apply Hne.
Qed.

Lemma noEmptyPool_poolRemove_fold sid (ints : list string) pools :
  noEmptyPool pools → noEmptyPool (foldl (poolRemove sid) pools ints).
Proof.
  intros Hne k S. rewrite lookup_poolRemove_fold. case_decide.
  - apply strip_nonempty.
  - apply Hne.
Qed.

Lemma noEmptyPool_enqueueClient q c m :
  noEmptyPool (poolsOf m q) → noEmptyPool (poolsOf m (enqueueClient q c)).
Proof.
  intros H. unfold enqueueClient. destruct (decide (mode c = m)) as [<-|N].
  - rewrite poolsOf_withMode. now apply noEmptyPool_poolAdd_fold.
  - now rewrite poolsOf_withMode_ne.
Qed.

Lemma noEmptyPool_removeFromQueues q c m :
  noEmptyPool (poolsOf m q) → noEmptyPool (poolsOf m (removeFromQueues q c)).
Proof.
  intros H. unfold removeFromQueues. destruct (decide (mode c = m)) as [<-|N].
  - rewrite poolsOf_withMode. now apply noEmptyPool_poolRemove_fold.
  - now rewrite poolsOf_withMode_ne.
Qed.

Lemma tryMatch_queues q c reg :
  (tryMatch q c reg).2 = q
  ∨ ∃ other, (tryMatch q c reg).2 = removeFromQueues (removeFromQueues q c) other.
Proof.
  unfold tryMatch.
  destruct (if decide (0 < size (candidateSet q c))
            then scanCandidates (candidateSet q c) reg c (waitingOf (mode c) q)
            else None) as [[sid other]|].
  - right. now exists other.
  - destruct (scanFifo reg c _) as [[sid other]|]; [right; now exists other | now left].
Qed.

Lemma noEmptyPool_tryMatch q c reg m :
  noEmptyPool (poolsOf m q) → noEmptyPool (poolsOf m (tryMatch q c reg).2).
Proof.
  intros H. destruct (tryMatch_queues q c reg) as [-> | (other & ->)]; [assumption|].
  now repeat apply noEmptyPool_removeFromQueues.
Qed.

Lemma scanFifo_None reg c w :
  scanFifo reg c w = None ↔ ∀ sid, sid ∈ w → ¬ fifoEligible reg c sid.
Proof.
  induction w as [|y w IH]; cbn [scanFifo].
  - split; [|reflexivity]. intros _ sid H. now apply elem_of_nil in H.
  - assert (skip : ¬ fifoEligible reg c y →
              (scanFifo reg c w = None ↔
               ∀ sid, sid ∈ y :: w → ¬ fifoEligible reg c sid)).
    { intros Hy. rewrite IH. split.
      - intros H sid Hin. apply elem_of_cons in Hin as [->|Hin]; auto.
      - intros H sid Hin. apply H. now right. }
    destruct (decide (y = sessionId c)) as [E|E].
    { apply skip. intros [H _]. contradiction. }
    destruct (reg_get reg y) as [o|] eqn:G.
    + destruct (decide (mode o = mode c)) as [M|M].
      * split; [discriminate|]. intros H. exfalso. apply (H y); [left|].
        split; [assumption|]. eauto.
      * apply skip. intros (_ & o' & Ho' & Hm). congruence.
    + apply skip. intros (_ & o' & Ho' & _). congruence.
Qed.

Lemma scanFifo_first reg c pre sid post other :
  (∀ x, x ∈ pre → ¬ fifoEligible reg c x) →
  sid ≠ sessionId c → reg_get reg sid = Some other → mode other = mode c →
  scanFifo reg c (pre ++ sid :: post) = Some (sid, other).
Proof.
  intros Hpre Hne Hget Hmode. induction pre as [|y pre IH].
  - cbn. rewrite decide_False by assumption. rewrite Hget.
    now rewrite decide_True by assumption.
  - assert (Hy : ¬ fifoEligible reg c y) by (apply Hpre; left).
    assert (IH' : scanFifo reg c (pre ++ sid :: post) = Some (sid, other)).
    { apply IH. intros x Hx. apply Hpre. now right. }
    cbn [app scanFifo].
    destruct (decide (y = sessionId c)); [assumption|].
    destruct (reg_get reg y) as [o|] eqn:G; [|assumption].
    destruct (decide (mode o = mode c)); [|assumption].
    exfalso. apply Hy. split; eauto.
Qed.

Lemma scanCandidates_None (cand : gset string) reg c w :
  (∀ x, x ∈ w → ¬ eligible cand reg c x) → scanCandidates cand reg c w = None.
Proof.
  induction w as [|y w IH]; intros H; [reflexivity|].
  rewrite scanCandidates_skip by (apply H; left).
  apply IH. intros x Hx. apply H. now right.
Qed.

Lemma eligible_fifoEligible (cand : gset string) reg c sid :
  eligible cand reg c sid → fifoEligible reg c sid.
Proof. intros (H1 & _ & H3). now split. Qed.

End QueueFacts.

(** X1.  [enqueueClient] adds the session to the pool of each of its
    interests, filed under the trimmed lower-case key, never under the empty
    key, and changes no other membership: afterwards [x] is in pool [k] exactly
    when it was before, or [x] is the session and [k] is one of those keys. *)
Theorem enqueueClient_pool_membership (q : MatchmakingQueues) (c : ClientInfo)
  (k x : string) :
  inPool (poolsOf (mode c) (enqueueClient q c)) k x ↔
  inPool (poolsOf (mode c) q) k x
  ∨ (x = sessionId c ∧ k ≠ "" ∧ k ∈ poolKey <$> interests c).
Proof.
  unfold enqueueClient. rewrite poolsOf_withMode. apply poolAdd_fold_inPool.
Qed.

(** X2.  [removeFromQueues] touches nobody else: for any other id the FIFO
    membership and every pool membership are what they were, and the other
    entries of the FIFO keep their order. *)
Theorem removeFromQueues_spares_others (q : MatchmakingQueues) (c : ClientInfo)
  (x : string) :
  x ≠ sessionId c →
  let q' := removeFromQueues q c in
  (x ∈ waitingOf (mode c) q' ↔ x ∈ waitingOf (mode c) q)
  ∧ (∀ k, inPool (poolsOf (mode c) q') k x ↔ inPool (poolsOf (mode c) q) k x)
  ∧ filter (λ y, y ≠ sessionId c) (waitingOf (mode c) q')
    = filter (λ y, y ≠ sessionId c) (waitingOf (mode c) q).
Proof.
  intros N q'. subst q'.
  rewrite removeFromQueues_waiting, removeFromQueues_pools.
  split; [now apply elem_of_removeFirst_iff|]. split.
  - intros k. now apply poolRemove_fold_inPool.
  - apply removeFirst_filter.
Qed.


Section QueueRoundTrips.

Implicit Types (q : MatchmakingQueues) (c other : ClientInfo) (reg : Registry).
Implicit Types (w : list string) (pools : gmap string (gset string)).
Implicit Types (sid x k : string).

Lemma withMode_withMode m w1 w2 pools1 pools2 q :
  withMode m w2 pools2 (withMode m w1 pools1 q) = withMode m w2 pools2 q.
Proof. now destruct m. Qed.

Lemma normalToken_keys (ints : list string) :
  Forall normalToken ints → poolKey <$> ints = ints ∧ toLowerCase <$> ints = ints.
Proof.
  induction 1 as [|i ints (Hne & Ht & Hl) _ [IH1 IH2]]; [now split|].
  rewrite !fmap_cons, IH1, IH2. unfold poolKey. now rewrite Ht, Hl.
Qed.

Lemma strip_absent sid (S : gset string) :
  sid ∉ S → S ≠ ∅ → strip sid (Some S) = Some S.
Proof.
  intros Hin Hne. cbn [strip].
  assert (E : S ∖ {[sid]} = S) by set_solver. rewrite E.
  rewrite decide_False; [reflexivity|].
  intros Hs. apply size_empty_inv in Hs. apply Hne. now apply leibniz_equiv.
Qed.

Lemma strip_added sid (o : option (gset string)) :
  (∀ S, o = Some S → (sid ∉ S) ∧ S ≠ ∅) →
  strip sid (Some (default ∅ o ∪ {[sid]})) = o.
Proof.
  intros H. unfold strip. destruct o as [S|].
  - change (default ∅ (Some S)) with S.
    destruct (H S eq_refl) as [Hin Hne].
    assert (E : (S ∪ {[sid]}) ∖ {[sid]} = S) by set_solver. rewrite E.
    rewrite decide_False; [reflexivity|].
    intros Hs. apply size_empty_inv in Hs. apply Hne. now apply leibniz_equiv.
  - change (default ∅ (@None (gset string))) with (∅ : gset string).
    assert (E : ((∅ : gset string) ∪ {[sid]}) ∖ {[sid]} = ∅) by set_solver.
    rewrite E. rewrite decide_True by apply size_empty. reflexivity.
Qed.

Lemma removeFirst_filter_gen (P : string → Prop) `{∀ y, Decision (P y)} sid w :
  ¬ P sid → filter P (removeFirst sid w) = filter P w.
Proof.
  intros N. induction w as [|y w IH]; [reflexivity|]. cbn [removeFirst].
  destruct (decide (y = sid)) as [->|Ny].
  - now rewrite filter_cons_False.
  - destruct (decide (P y)).
    + rewrite !filter_cons_True by assumption. now rewrite IH.
    + now rewrite !filter_cons_False.
Qed.

End QueueRoundTrips.

(** X3.  Enqueueing a session and removing it again restores the queues, when
    the session was not queued or pooled before, its interests are in normal
    form (not empty, and left as they are by [trim] and by [toLowerCase]),
    and no pool was empty. *)
Theorem enqueue_then_remove_restores (q : MatchmakingQueues) (c : ClientInfo) :
  sessionId c ∉ waitingOf (mode c) q →
  Forall normalToken (interests c) →
  (∀ k, ¬ inPool (poolsOf (mode c) q) k (sessionId c)) →
  noEmptyPool (poolsOf (mode c) q) →
  removeFromQueues (enqueueClient q c) c = q.
Proof.
  intros Hw Hnorm Hpool Hne.
  destruct (normalToken_keys _ Hnorm) as [Hk1 Hk2].
  unfold removeFromQueues, enqueueClient.
  rewrite waitingOf_withMode, poolsOf_withMode, withMode_withMode.
  rewrite removeFirst_app_absent by assumption.
  etransitivity; [|apply (withMode_eta q (mode c))]. f_equal.
  apply map_eq. intros k.
  rewrite lookup_poolRemove_fold, lookup_poolAdd_fold, Hk1, Hk2.
  destruct (decide (k ∈ interests c)) as [Hin|Hin].
  - assert (Hk : k ≠ "").
    { rewrite Forall_forall in Hnorm. now destruct (Hnorm k Hin). }
    rewrite decide_True by now split.
    apply strip_added. intros S HS. split.
    + intros Hx. apply (Hpool k). now exists S.
    + now apply (Hne k).
  - rewrite decide_False; [reflexivity|]. now intros [_ ?].
Qed.


(** X4.  [removeFromQueues] is safe on a session that is not queued: when the
    id is in neither the mode FIFO nor any pool (and no pool is empty), the
    queues are returned as they were. *)
Theorem removeFromQueues_not_queued (q : MatchmakingQueues) (c : ClientInfo) :
  sessionId c ∉ waitingOf (mode c) q →
  (∀ k, ¬ inPool (poolsOf (mode c) q) k (sessionId c)) →
  noEmptyPool (poolsOf (mode c) q) →
  removeFromQueues q c = q.
Proof.
  intros Hw Hpool Hne. unfold removeFromQueues.
  rewrite removeFirst_absent by assumption.
  etransitivity; [|apply (withMode_eta q (mode c))]. f_equal.
  apply map_eq. intros k. rewrite lookup_poolRemove_fold.
  case_decide; [|reflexivity].
  destruct (poolsOf (mode c) q !! k) as [S|] eqn:E; [|reflexivity].
  apply strip_absent.
  - intros Hx. apply (Hpool k). now exists S.
  - now apply (Hne k).
Qed.


(** X5.  [enqueueClient] trims the pool key and [removeFromQueues] does not:
    a session enqueued with an interest whose trimmed lower-case key is not
    the lower-case form of any of its interests is still in that pool after
    its removal. *)
Theorem untrimmed_interest_survives_removal (q : MatchmakingQueues)
  (c : ClientInfo) (i : string) :
  i ∈ interests c →
  poolKey i ≠ "" →
  poolKey i ∉ toLowerCase <$> interests c →
  inPool (poolsOf (mode c) (removeFromQueues (enqueueClient q c) c))
    (poolKey i) (sessionId c).
Proof.
  intros Hi Hk Hnot. unfold inPool.
  rewrite removeFromQueues_pools, lookup_poolRemove_fold.
  rewrite decide_False by assumption.
  unfold enqueueClient. rewrite poolsOf_withMode, lookup_poolAdd_fold.
  rewrite decide_True.
  - eexists. split; [reflexivity|]. set_solver.
  - split; [assumption|]. apply list_elem_of_fmap. now exists i.
Qed.


(** X6.  [tryMatch] returns no pair exactly when no entry of the mode FIFO,
    other than the requester, is registered with the requester's mode; and
    when it returns no pair it leaves the queues as they were. *)
Theorem tryMatch_none_iff (q : MatchmakingQueues) (c : ClientInfo) (reg : Registry) :
  ((tryMatch q c reg).1 = None ↔
   ∀ sid, sid ∈ waitingOf (mode c) q → ¬ fifoEligible reg c sid)
  ∧ ((tryMatch q c reg).1 = None → (tryMatch q c reg).2 = q).
Proof.
  unfold tryMatch.
  destruct (if decide (0 < size (candidateSet q c))
            then scanCandidates (candidateSet q c) reg c (waitingOf (mode c) q)
            else None) as [[sid other]|] eqn:Hhit.
  - split; [|discriminate]. split; [discriminate|]. intros H. exfalso.
    case_decide; [|discriminate].
    apply scanCandidates_Some in Hhit as (Hin & Hne & _ & Hget & Hm).
    apply (H sid Hin). split; eauto.
  - destruct (scanFifo reg c _) as [[sid other]|] eqn:Hfifo.
    + split; [|discriminate]. split; [discriminate|]. intros H.
      apply scanFifo_None in H. congruence.
    + split; [|reflexivity]. split; [|reflexivity].
      intros _. now apply scanFifo_None.
Qed.

Lemma tryMatch_no_candidate (q : MatchmakingQueues) (c : ClientInfo) (reg : Registry) :
  (∀ x, x ∈ waitingOf (mode c) q → ¬ eligible (candidateSet q c) reg c x) →
  tryMatch q c reg
  = match scanFifo reg c (waitingOf (mode c) q) with
    | Some (sid, other) =>
        (Some (mkPair (sessionId c) sid),
         removeFromQueues (removeFromQueues q c) other)
    | None => (None, q)
    end.
Proof.
  intros Hcand. unfold tryMatch.
  rewrite (scanCandidates_None _ reg c _ Hcand).
  now case_decide.
Qed.



(** X8.  A successful [tryMatch] removes the two matched sessions only: any
    third id is in the mode FIFO and in each pool exactly as before, and the
    remaining FIFO entries keep their order. *)
Theorem tryMatch_spares_bystanders (q : MatchmakingQueues) (c : ClientInfo)
  (reg : Registry) (p : MatchPair) (x : string) :
  (tryMatch q c reg).1 = Some p →
  keyed reg →
  x ≠ pair_a p →
  x ≠ pair_b p →
  let q' := (tryMatch q c reg).2 in
  (x ∈ waitingOf (mode c) q' ↔ x ∈ waitingOf (mode c) q)
  ∧ (∀ k, inPool (poolsOf (mode c) q') k x ↔ inPool (poolsOf (mode c) q) k x)
  ∧ filter (λ y, y ≠ pair_a p ∧ y ≠ pair_b p) (waitingOf (mode c) q')
    = filter (λ y, y ≠ pair_a p ∧ y ≠ pair_b p) (waitingOf (mode c) q).
Proof.
  intros Hp K Na Nb q'. subst q'.
  destruct (tryMatch_Some q c reg p Hp) as (o & Ha & _ & _ & Hget & Hm & ->).
  pose proof (keyed_get _ _ _ K Hget) as Hid.
  rewrite Ha in *. rewrite <- Hid in *. clear Hp Ha Hid Hget.
  rewrite <- Hm. rewrite removeFromQueues_waiting, removeFromQueues_pools.
  rewrite Hm. rewrite removeFromQueues_waiting, removeFromQueues_pools.
  split; [|split].
  - now rewrite !elem_of_removeFirst_iff.
  - intros k. now rewrite !poolRemove_fold_inPool.
  - rewrite !removeFirst_filter_gen; [reflexivity | |]; intros [H1 H2]; congruence.
Qed.


(** * Further properties of the server *)

Section RecordInvariant.

Variable P : ClientInfo → Prop.
Hypothesis P_paired : ∀ p c, P c → P (setPairedWith p c).
Hypothesis P_join : ∀ sid md ints conn,
  P (mkClient sid md (sanitizeInterests ints) conn None).

Implicit Types (s : Server) (reg : Registry) (c : ClientInfo) (sid k : string).

Lemma allRecords_get reg k r : allRecords P reg → reg_get reg k = Some r → P r.
Proof.
  unfold allRecords. induction reg as [|[k0 v0] reg IH]; [discriminate|].
  intros H. apply Forall_cons in H as [H0 H]. cbn [reg_get].
  case_decide; [now intros [= <-] | now apply IH].
Qed.

Lemma allRecords_set reg k v : allRecords P reg → P v → allRecords P (reg_set reg k v).
Proof.
  unfold allRecords. intros H Hv. induction reg as [|[k0 v0] reg IH]; cbn [reg_set].
  - now repeat constructor.
  - apply Forall_cons in H as [H0 H]. case_decide; constructor; auto.
Qed.

Lemma allRecords_update reg k p :
  allRecords P reg → allRecords P (reg_update reg k (setPairedWith p)).
Proof.
  unfold allRecords. intros H. induction reg as [|[k0 v0] reg IH]; cbn [reg_update].
  - constructor.
  - apply Forall_cons in H as [H0 H]. case_decide; constructor; auto.
    now apply P_paired.
Qed.

Lemma allRecords_delete reg k : allRecords P reg → allRecords P (reg_delete reg k).
Proof.
  unfold allRecords. intros H. induction reg as [|[k0 v0] reg IH]; cbn [reg_delete].
  - constructor.
  - apply Forall_cons in H as [H0 H]. case_decide; [assumption|]. constructor; auto.
Qed.

Lemma allRecords_settle attempt conn s :
  allRecords P (sessionIdToClient s) →
  allRecords P (sessionIdToClient (settle attempt conn s)).
Proof.
  intros H. unfold settle. destruct attempt as [p|]; [|assumption].
  destruct (reg_get _ (pair_a p)) as [a|]; [|assumption].
  destruct (reg_get _ (pair_b p)) as [b|]; [|assumption].
  cbn [send setRegistry sessionIdToClient]. now repeat apply allRecords_update.
Qed.

Lemma allRecords_matchFor c conn s :
  allRecords P (sessionIdToClient s) →
  allRecords P (sessionIdToClient (matchFor c conn s)).
Proof.
  intros H. unfold matchFor. destruct (tryMatch _ c _) as [attempt q].
  now apply allRecords_settle.
Qed.

Lemma allRecords_attemptMatch sid conn s :
  allRecords P (sessionIdToClient s) →
  allRecords P (sessionIdToClient (attemptMatch sid conn s)).
Proof.
  intros H. unfold attemptMatch.
  destruct (reg_get _ sid); [now apply allRecords_matchFor | assumption].
Qed.

Lemma allRecords_dropPeer c note requeue s :
  allRecords P (sessionIdToClient s) →
  allRecords P (sessionIdToClient (dropPeer c note requeue s)).
Proof.
  intros H. unfold dropPeer. destruct (truthy (pairedWith c)) as [p|]; [|assumption].
  destruct (reg_get _ p) as [peer|]; [|assumption].
  destruct requeue; cbn [send setRegistry setQueues sessionIdToClient];
    now apply allRecords_update.
Qed.

Lemma allRecords_step s e :
  allRecords P (sessionIdToClient s) → allRecords P (sessionIdToClient (step s e)).
Proof.
  intros H. destruct e as [conn msg|conn|]; cbn [step].
  - destruct msg as [m sid ints|sid|sid|sid reason|kind to body|];
      cbn [handleMessage].
    + unfold handleJoin. destruct (negb (isValidUuidV4 sid)); [assumption|].
      destruct (parseMode m) as [md|]; [|assumption].
      assert (H' : allRecords P (reg_set (sessionIdToClient s) sid
                            (mkClient sid md (sanitizeInterests ints) conn None)))
        by now apply allRecords_set.
      case_decide; [assumption|]. now apply allRecords_attemptMatch.
    + unfold handleLeave. destruct (reg_get _ sid) as [c|]; [|assumption].
      cbn [setRegistry setQueues sessionIdToClient].
      now apply allRecords_delete, allRecords_dropPeer.
    + unfold handleNext. destruct (reg_get _ sid) as [c|]; [|assumption].
      assert (H' : allRecords P (sessionIdToClient
                match truthy (pairedWith c) with
                | None => s
                | Some _ =>
                    let s' := dropPeer c "peer_skipped" true s in
                    setRegistry
                      (reg_update (sessionIdToClient s') sid (setPairedWith None)) s'
                end)).
      { destruct (truthy (pairedWith c)); [|assumption].
        cbn [setRegistry sessionIdToClient].
        now apply allRecords_update, allRecords_dropPeer. }
      cbv zeta. case_decide; [assumption|]. now apply allRecords_matchFor.
    + unfold handleReport. cbn [pushReport sessionIdToClient].
      destruct (reg_get _ sid) as [c|]; [|assumption].
      destruct (truthy (pairedWith c)); [|assumption].
      cbn [setRegistry sessionIdToClient].
      now apply allRecords_update, allRecords_dropPeer.
    + unfold handleRelay. destruct (truthy to) as [t|]; [|assumption].
      now destruct (reg_get _ t).
    + assumption.
  - unfold handleClose. destruct (findByWs _ conn) as [[sid c]|]; [|assumption].
    cbn [setRegistry setQueues sessionIdToClient].
    now apply allRecords_delete, allRecords_dropPeer.
  - destruct (timers s) as [|t rest]; [assumption|].
    destruct t as [sid conn|c]; cbn [runTask].
    + now apply allRecords_attemptMatch.
    + now apply allRecords_matchFor.
Qed.

Lemma allRecords_run es : allRecords P (sessionIdToClient (run initial es)).
Proof.
  unfold run. assert (H0 : allRecords P (sessionIdToClient initial)) by constructor.
  revert H0. generalize initial. induction es as [|e es IH]; intros s H; [assumption|].
  cbn [foldl]. now apply IH, allRecords_step.
Qed.

End RecordInvariant.

(** X9.  Invariant of the registry: in every state the server reaches from
    the empty one, whatever the events, each session id is registered at most
    once and the record found under an id carries that id. *)
Theorem reachable_registry_keyed (es : list Event) :
  NoDup (sessionIdToClient (run initial es)).*1
  ∧ ∀ k r, reg_get (sessionIdToClient (run initial es)) k = Some r → sessionId r = k.
Proof.
  pose proof (run_keyed es) as K. split; [apply K|].
  intros k r. now apply keyed_get.
Qed.

(** X10.  Every record the server ever holds has the interests that
    [sanitizeInterests] made of a join: at most ten of them, none empty, each
    one a string put through [trim] and then [toLowerCase].  When
    lower-casing a trimmed string leaves it trimmed, [enqueueClient] (which
    trims the key again), [removeFromQueues] and [tryMatch] (which do not)
    all file such a record under the same pool keys. *)
Theorem reachable_interests_sanitized (es : list Event) (k : string) (r : ClientInfo) :
  reg_get (sessionIdToClient (run initial es)) k = Some r →
  length (interests r) ≤ 10
  ∧ Forall storedToken (interests r)
  ∧ ((∀ t, trim (toLowerCase (trim t)) = toLowerCase (trim t)) →
     poolKey <$> interests r = toLowerCase <$> interests r).
Proof.
  intros H.
  assert (S : sanitized r).
  { revert H. apply allRecords_get. apply allRecords_run.
    - intros p c Hc. exact Hc.
    - intros sid md ints conn. split; cbn [interests].
      + apply sanitizeInterests_stored.
      + apply sanitizeInterests_length. }
  destruct S as [Hn Hl]. split; [exact Hl|]. split; [exact Hn|].
  intros Htrim. now apply storedToken_keys.
Qed.


Section QueueEvolution.

Implicit Types (s : Server) (q : MatchmakingQueues) (c : ClientInfo) (sid : string).

Lemma queueTrace_trans q1 q2 q3 : queueTrace q1 q2 → queueTrace q2 q3 → queueTrace q1 q3.
Proof.
  intros H12 H23. induction H23 as [|q' c _ IH|q' c _ IH].
  - assumption.
  - now apply queueTrace_enqueue.
  - now apply queueTrace_remove.
Qed.

Lemma queueTrace_tryMatch q c reg : queueTrace q (tryMatch q c reg).2.
Proof.
  destruct (tryMatch_queues q c reg) as [-> | (other & ->)].
  - apply queueTrace_refl.
  - apply queueTrace_remove, queueTrace_remove, queueTrace_refl.
Qed.

Lemma matchFor_queues c conn s :
  queues (matchFor c conn s) = (tryMatch (queues s) c (sessionIdToClient s)).2.
Proof.
  unfold matchFor. destruct (tryMatch _ c _) as [attempt q].
  now rewrite settle_queues.
Qed.

Lemma queueTrace_matchFor c conn s : queueTrace (queues s) (queues (matchFor c conn s)).
Proof. rewrite matchFor_queues. apply queueTrace_tryMatch. Qed.

Lemma queueTrace_attemptMatch sid conn s :
  queueTrace (queues s) (queues (attemptMatch sid conn s)).
Proof.
  unfold attemptMatch.
  destruct (reg_get _ sid); [apply queueTrace_matchFor | apply queueTrace_refl].
Qed.

Lemma queueTrace_dropPeer c note requeue s :
  queueTrace (queues s) (queues (dropPeer c note requeue s)).
Proof.
  unfold dropPeer. destruct (truthy (pairedWith c)) as [p|]; [|apply queueTrace_refl].
  destruct (reg_get _ p) as [peer|]; [|apply queueTrace_refl].
  destruct requeue; cbn [send setRegistry setQueues queues].
  - apply queueTrace_enqueue, queueTrace_refl.
  - apply queueTrace_refl.
Qed.

(** The handlers change the queues through [enqueueClient] and
    [removeFromQueues] only. *)
Lemma queueTrace_step s e : queueTrace (queues s) (queues (step s e)).
Proof.
  destruct e as [conn msg|conn|]; cbn [step].
  - destruct msg as [m sid ints|sid|sid|sid reason|kind to body|];
      cbn [handleMessage].
    + unfold handleJoin.
      destruct (negb (isValidUuidV4 sid)); [apply queueTrace_refl|].
      destruct (parseMode m) as [md|]; [|apply queueTrace_refl].
      case_decide.
      * cbn [setTimeout setTimers setQueues setRegistry queues].
        apply queueTrace_enqueue, queueTrace_refl.
      * eapply queueTrace_trans; [|apply queueTrace_attemptMatch].
        cbn [setQueues setRegistry queues].
        apply queueTrace_enqueue, queueTrace_refl.
    + unfold handleLeave. destruct (reg_get _ sid) as [c|]; [|apply queueTrace_refl].
      cbn [setRegistry setQueues queues].
      apply queueTrace_remove, queueTrace_dropPeer.
    + unfold handleNext. destruct (reg_get _ sid) as [c|]; [|apply queueTrace_refl].
      assert (H1 : queueTrace (queues s) (queues
                match truthy (pairedWith c) with
                | None => s
                | Some _ =>
                    let s' := dropPeer c "peer_skipped" true s in
                    setRegistry
                      (reg_update (sessionIdToClient s') sid (setPairedWith None)) s'
                end)).
      { destruct (truthy (pairedWith c)); [|apply queueTrace_refl].
        cbn [setRegistry queues]. apply queueTrace_dropPeer. }
      cbv zeta. case_decide.
      * cbn [setTimeout setTimers setQueues queues].
        now apply queueTrace_enqueue, queueTrace_remove.
      * eapply queueTrace_trans; [|apply queueTrace_matchFor].
        cbn [setQueues queues]. now apply queueTrace_enqueue, queueTrace_remove.
    + unfold handleReport.
      destruct (reg_get _ sid) as [c|]; [|apply queueTrace_refl].
      destruct (truthy (pairedWith c)); [|apply queueTrace_refl].
      cbn [setRegistry queues].
      apply (queueTrace_dropPeer c "peer_reported" false (pushReport sid reason s)).
    + unfold handleRelay. destruct (truthy to) as [t|]; [|apply queueTrace_refl].
      destruct (reg_get _ t); apply queueTrace_refl.
    + apply queueTrace_refl.
  - unfold handleClose.
    destruct (findByWs _ conn) as [[sid c]|]; [|apply queueTrace_refl].
    cbn [setRegistry setQueues queues].
    apply queueTrace_remove, queueTrace_dropPeer.
  - destruct (timers s) as [|t rest]; [apply queueTrace_refl|].
    destruct t as [sid conn|c]; cbn [runTask].
    + apply (queueTrace_attemptMatch sid conn (setTimers rest s)).
    + apply (queueTrace_matchFor c (ws c) (setTimers rest s)).
Qed.

Lemma queueTrace_run es : queueTrace createQueues (queues (run initial es)).
Proof.
  unfold run. assert (H0 : queueTrace createQueues (queues initial))
    by apply queueTrace_refl.
  revert H0. generalize initial. induction es as [|e es IH]; intros s H; [assumption|].
  cbn [foldl]. apply IH. eapply queueTrace_trans; [eassumption | apply queueTrace_step].
Qed.

Lemma noEmptyPool_queueTrace q q' m :
  queueTrace q q' → noEmptyPool (poolsOf m q) → noEmptyPool (poolsOf m q').
Proof.
  intros T H. induction T as [|q' c _ IH|q' c _ IH].
  - assumption.
  - now apply noEmptyPool_enqueueClient.
  - now apply noEmptyPool_removeFromQueues.
Qed.

(** Pending timers are only ever appended to by the pieces of a handler. *)
Lemma settle_timers attempt conn s : timers (settle attempt conn s) = timers s.
Proof.
  unfold settle. destruct attempt as [p|]; [|reflexivity].
  destruct (reg_get _ (pair_a p)) as [a|]; [|reflexivity].
  now destruct (reg_get _ (pair_b p)) as [b|].
Qed.

Lemma matchFor_timers c conn s : timers (matchFor c conn s) = timers s.
Proof.
  unfold matchFor. destruct (tryMatch _ c _) as [attempt q].
  now rewrite settle_timers.
Qed.

Lemma attemptMatch_timers sid conn s : timers (attemptMatch sid conn s) = timers s.
Proof.
  unfold attemptMatch. destruct (reg_get _ sid); [apply matchFor_timers | reflexivity].
Qed.

Lemma dropPeer_timers c note requeue s : timers (dropPeer c note requeue s) = timers s.
Proof.
  unfold dropPeer. destruct (truthy (pairedWith c)) as [p|]; [|reflexivity].
  destruct (reg_get _ p) as [peer|]; [|reflexivity]. now destruct requeue.
Qed.

End QueueEvolution.

(** X11.  No pool of the server is ever an empty set: in every reachable state
    each pool that exists, in either mode, has a member. *)
Theorem reachable_no_empty_pool (es : list Event) (m : ChatMode) (k : string)
  (S : gset string) :
  poolsOf m (queues (run initial es)) !! k = Some S → ∃ x, x ∈ S.
Proof.
  intros H. apply set_choose_L.
  revert k S H. change (noEmptyPool (poolsOf m (queues (run initial es)))).
  apply (noEmptyPool_queueTrace createQueues); [apply queueTrace_run|].
  intros k S HS. destruct m; cbn in HS; now rewrite lookup_empty in HS.
Qed.


(** X12.  No message and no close of a connection ever cancels a pending
    deferred attempt: after the handler the timers pending before are all
    still pending, in the same order, with at most new ones after them.  Only
    the expiry of a timer removes it, and it removes the oldest one. *)
Theorem handlers_never_cancel_timers (s : Server) :
  (∀ conn msg, timers s `prefix_of` timers (step s (Message conn msg)))
  ∧ (∀ conn, timers (step s (Close conn)) = timers s)
  ∧ (∀ t rest, timers s = t :: rest → timers (step s TimerFires) = rest).
Proof.
  split; [|split].
  - intros conn msg. cbn [step].
    destruct msg as [m sid ints|sid|sid|sid reason|kind to body|];
      cbn [handleMessage].
    + unfold handleJoin. destruct (negb (isValidUuidV4 sid)); [reflexivity|].
      destruct (parseMode m) as [md|]; [|reflexivity].
      case_decide.
      * cbn [setTimeout setTimers setQueues setRegistry timers].
        now apply prefix_app_r.
      * now rewrite attemptMatch_timers.
    + unfold handleLeave. destruct (reg_get _ sid) as [c|]; [|reflexivity].
      cbn [setRegistry setQueues timers]. now rewrite dropPeer_timers.
    + unfold handleNext. destruct (reg_get _ sid) as [c|]; [|reflexivity].
      assert (H1 : timers
                match truthy (pairedWith c) with
                | None => s
                | Some _ =>
                    let s' := dropPeer c "peer_skipped" true s in
                    setRegistry
                      (reg_update (sessionIdToClient s') sid (setPairedWith None)) s'
                end = timers s).
      { destruct (truthy (pairedWith c)); [|reflexivity].
        cbn [setRegistry timers]. apply dropPeer_timers. }
      cbv zeta in H1 |- *. case_decide.
      * cbn [setTimeout setTimers setQueues timers]. rewrite H1.
        now apply prefix_app_r.
      * rewrite matchFor_timers. cbn [setQueues timers]. now rewrite H1.
    + unfold handleReport. destruct (reg_get _ sid) as [c|]; [|reflexivity].
      destruct (truthy (pairedWith c)); [|reflexivity].
      cbn [setRegistry timers]. now rewrite dropPeer_timers.
    + unfold handleRelay. destruct (truthy to) as [t|]; [|reflexivity].
      now destruct (reg_get _ t).
    + reflexivity.
  - intros conn. cbn [step]. unfold handleClose.
    destruct (findByWs _ conn) as [[sid c]|]; [|reflexivity].
    cbn [setRegistry setQueues timers]. apply dropPeer_timers.
  - intros t rest H. cbn [step]. rewrite H.
    destruct t as [sid conn|c]; cbn [runTask].
    + now rewrite attemptMatch_timers.
    + now rewrite matchFor_timers.
Qed.

Section UuidFacts.

Lemma classMatches_lowerChar (k : UuidClass) (a : ascii) :
  classMatches k (lowerChar a) = classMatches k a.
Proof. destruct k, a as [[] [] [] [] [] [] [] []]; reflexivity. Qed.

Lemma matchesPattern_get (p : list UuidClass) (s : string) :
  matchesPattern p s = true →
  String.length s = length p
  ∧ ∀ i k, p !! i = Some k →
           ∃ a, String.get i s = Some a ∧ classMatches k a = true.
Proof.
  revert s. induction p as [|k p IH]; intros [|a s]; cbn; try discriminate.
  - intros _. split; [reflexivity|]. intros i k H. now destruct i.
  - intros H. apply andb_true_iff in H as [Ha Hs].
    destruct (IH s Hs) as [Hlen Hget]. split; [now rewrite Hlen|].
    intros [|i] k' Hk; cbn in Hk.
    + injection Hk as <-. exists a. now split.
    + now apply Hget.
Qed.

Lemma classMatches_Dash (a : ascii) : classMatches Dash a = true → a = "-"%char.
Proof.
  destruct a as [[] [] [] [] [] [] [] []]; vm_compute; intros H;
    (discriminate H || reflexivity).
Qed.

Lemma classMatches_Four (a : ascii) : classMatches Four a = true → a = "4"%char.
Proof.
  destruct a as [[] [] [] [] [] [] [] []]; vm_compute; intros H;
    (discriminate H || reflexivity).
Qed.

End UuidFacts.

(** X13.  [isValidUuidV4] accepts only strings of 36 characters with a hyphen
    at positions 8, 13, 18 and 23 and the version digit 4 at position 14. *)
Theorem isValidUuidV4_shape (s : string) :
  isValidUuidV4 s = true →
  String.length s = 36
  ∧ String.get 14 s = Some "4"%char
  ∧ ∀ i, i ∈ [8; 13; 18; 23] → String.get i s = Some "-"%char.
Proof.
  intros H. apply matchesPattern_get in H as [Hlen Hget].
  split; [exact Hlen|]. split.
  - destruct (Hget 14 Four eq_refl) as (a & Ha & Hc).
    now rewrite Ha, (classMatches_Four a Hc).
  - intros i Hi.
    assert (Hk : uuidPattern !! i = Some Dash).
    { repeat (apply elem_of_cons in Hi as [-> | Hi]; [reflexivity|]).
      now apply elem_of_nil in Hi. }
    destruct (Hget i Dash Hk) as (a & Ha & Hc).
    now rewrite Ha, (classMatches_Dash a Hc).
Qed.


(** X14.  [isValidUuidV4] is case-insensitive: a string is accepted exactly
    when its lower-case form, the letters [A-Z] folded, is. *)
Theorem isValidUuidV4_case_insensitive (s : string) :
  isValidUuidV4 (asciiToLowerCase s) = isValidUuidV4 s.
Proof.
  unfold isValidUuidV4. generalize uuidPattern. intros p. revert s.
  induction p as [|k p IH]; intros [|a s]; cbn; try reflexivity.
  now rewrite classMatches_lowerChar, IH.
Qed.

(** X15.  A join with an invalid session id or an invalid mode is answered
    with a single [error] to the sender and changes nothing else (registry,
    queues, reports and timers are as before); the session id is checked
    first. *)
Theorem join_rejected (conn : nat) (m sid : string) (ints : option (list JsValue))
  (s : Server) :
  isValidUuidV4 sid = false ∨ parseMode m = None →
  let s' := handleJoin conn m sid ints s in
  let code := if isValidUuidV4 sid then "invalid_mode" else "invalid_sessionId" in
  sessionIdToClient s' = sessionIdToClient s
  ∧ queues s' = queues s
  ∧ reportsQueue s' = reportsQueue s
  ∧ timers s' = timers s
  ∧ outbox s' = outbox s ++ [(conn, Error code)].
Proof.
  intros H s' code. subst s' code. unfold handleJoin.
  destruct (isValidUuidV4 sid); cbn [negb].
  - destruct H as [H|H]; [discriminate|]. rewrite H. now repeat split.
  - now repeat split.
Qed.


Section Links.

Implicit Types (s : Server) (reg : Registry) (c : ClientInfo) (sid k : string).

Lemma settle_links p conn s a b :
  keyed (sessionIdToClient s) →
  reg_get (sessionIdToClient s) (pair_a p) = Some a →
  reg_get (sessionIdToClient s) (pair_b p) = Some b →
  pair_a p ≠ pair_b p →
  let s' := settle (Some p) conn s in
  reg_get (sessionIdToClient s') (pair_a p) = Some (setPairedWith (Some (pair_b p)) a)
  ∧ reg_get (sessionIdToClient s') (pair_b p) = Some (setPairedWith (Some (pair_a p)) b)
  ∧ (∀ k, k ≠ pair_a p → k ≠ pair_b p →
          reg_get (sessionIdToClient s') k = reg_get (sessionIdToClient s) k)
  ∧ outbox s' = outbox s ++ [(ws a, Paired (pair_b p)); (ws b, Paired (pair_a p))].
Proof.
  intros K Ha Hb Hab s'. subst s'. unfold settle. rewrite Ha, Hb.
  cbn [send setRegistry sessionIdToClient outbox].
  rewrite (keyed_get _ _ _ K Ha), (keyed_get _ _ _ K Hb).
  split; [|split; [|split]].
  - rewrite !reg_get_update, Ha. rewrite decide_False by congruence.
    now rewrite decide_True.
  - rewrite !reg_get_update, Hb. rewrite decide_True by reflexivity.
    now rewrite decide_False.
  - intros k Hka Hkb. rewrite !reg_get_update.
    rewrite decide_False by congruence. now rewrite decide_False by congruence.
  - now rewrite <- app_assoc.
Qed.

End Links.

Lemma matchFor_links (c cur : ClientInfo) (conn : nat) (s : Server)
  (p : MatchPair) :
  keyed (sessionIdToClient s) →
  reg_get (sessionIdToClient s) (sessionId c) = Some cur →
  (tryMatch (queues s) c (sessionIdToClient s)).1 = Some p →
  let s' := matchFor c conn s in
  ∃ other,
    reg_get (sessionIdToClient s) (pair_b p) = Some other
    ∧ reg_get (sessionIdToClient s') (pair_a p)
      = Some (setPairedWith (Some (pair_b p)) cur)
    ∧ reg_get (sessionIdToClient s') (pair_b p)
      = Some (setPairedWith (Some (pair_a p)) other)
    ∧ (∀ k, k ≠ pair_a p → k ≠ pair_b p →
            reg_get (sessionIdToClient s') k = reg_get (sessionIdToClient s) k)
    ∧ outbox s' = outbox s ++ [(ws cur, Paired (pair_b p)); (ws other, Paired (pair_a p))]
    ∧ timers s' = timers s.
Proof.
  intros K Hcur Hp s'. subst s'.
  destruct (tryMatch_Some _ _ _ _ Hp) as (other & Ha & _ & Hne & Hget & _ & _).
  exists other. split; [assumption|].
  rewrite matchFor_timers. unfold matchFor.
  destruct (tryMatch (queues s) c (sessionIdToClient s)) as [attempt q] eqn:E.
  cbn [fst] in Hp. subst attempt. rewrite <- Ha in Hcur.
  destruct (settle_links p conn (setQueues q s) cur other K Hcur Hget)
    as (H1 & H2 & H3 & H4); [congruence|].
  now repeat split.
Qed.

(** X16.  Match success: when [tryMatch] finds a partner for a registered
    session, the handler links the two records to each other, sends each of
    the two connections one [paired] message naming the other session, leaves
    every other record alone and schedules nothing. *)
Theorem matchFor_links_both (c cur : ClientInfo) (conn : nat) (s : Server)
  (p : MatchPair) :
  keyed (sessionIdToClient s) →
  reg_get (sessionIdToClient s) (sessionId c) = Some cur →
  (tryMatch (queues s) c (sessionIdToClient s)).1 = Some p →
  let s' := matchFor c conn s in
  ∃ other,
    reg_get (sessionIdToClient s) (pair_b p) = Some other
    ∧ reg_get (sessionIdToClient s') (pair_a p)
      = Some (setPairedWith (Some (pair_b p)) cur)
    ∧ reg_get (sessionIdToClient s') (pair_b p)
      = Some (setPairedWith (Some (pair_a p)) other)
    ∧ (∀ k, k ≠ pair_a p → k ≠ pair_b p →
            reg_get (sessionIdToClient s') k = reg_get (sessionIdToClient s) k)
    ∧ outbox s' = outbox s ++ [(ws cur, Paired (pair_b p)); (ws other, Paired (pair_a p))]
    ∧ timers s' = timers s.
Proof.
  intros K Hcur Hp s'. subst s'.
  destruct (tryMatch_Some _ _ _ _ Hp) as (other & Ha & _ & Hne & Hget & _ & _).
  exists other. split; [assumption|].
  rewrite matchFor_timers. unfold matchFor.
  destruct (tryMatch (queues s) c (sessionIdToClient s)) as [attempt q] eqn:E.
  cbn [fst] in Hp. subst attempt. rewrite <- Ha in Hcur.
  destruct (settle_links p conn (setQueues q s) cur other K Hcur Hget)
    as (H1 & H2 & H3 & H4); [congruence|].
  now repeat split.
Qed.


Section Teardown.

Implicit Types (s : Server) (reg : Registry) (c : ClientInfo) (sid k : string).

Lemma dropPeer_sameSession c note requeue s k r :
  reg_get (sessionIdToClient s) k = Some r →
  ∃ r', reg_get (sessionIdToClient (dropPeer c note requeue s)) k = Some r'
        ∧ sameSession r r'.
Proof.
  intros H. unfold dropPeer.
  assert (Hsame : ∃ r', reg_get (sessionIdToClient s) k = Some r' ∧ sameSession r r')
    by (exists r; split; [assumption | apply sameSession_refl]).
  destruct (truthy (pairedWith c)) as [p|]; [|assumption].
  destruct (reg_get _ p) as [peer|]; [|assumption].
  destruct requeue; cbn [send setRegistry setQueues sessionIdToClient];
    now apply reg_update_sameSession.
Qed.


Lemma removeFirst_app_ne sid x (w : list string) :
  x ≠ sid → removeFirst sid (w ++ [x]) = removeFirst sid w ++ [x].
Proof.
  intros N. induction w as [|y w IH]; cbn [app removeFirst].
  - now rewrite decide_False.
  - case_decide; [reflexivity|]. now rewrite IH.
Qed.

End Teardown.



(** X18.  The close of a connection removes one session only, the first one
    registered on it: any other session, one registered on the same connection
    included, is still registered afterwards with the same id, mode, interests
    and connection. *)
Theorem close_removes_first_session_only (conn : nat) (s : Server) (sid : string)
  (c : ClientInfo) (k : string) (r : ClientInfo) :
  keyed (sessionIdToClient s) →
  findByWs (sessionIdToClient s) conn = Some (sid, c) →
  k ≠ sid →
  reg_get (sessionIdToClient s) k = Some r →
  ∃ r', reg_get (sessionIdToClient (handleClose conn s)) k = Some r'
        ∧ sameSession r r'.
Proof.
  intros K Hfind Hk Hr. unfold handleClose. rewrite Hfind.
  cbn [setRegistry setQueues sessionIdToClient].
  rewrite reg_get_delete by now apply dropPeer_keyed.
  rewrite decide_False by congruence. now apply dropPeer_sameSession.
Qed.


(** X19.  Next of a registered session that has interests: the session ends up
    at the tail of its mode FIFO, exactly one deferred attempt holding its
    client object is scheduled after the pending ones, and its [pairedWith] is
    cleared if it was set.  If it was paired with another registered session,
    that peer is sent [peer_skipped] and nothing else is sent, the peer's
    [pairedWith] is cleared, and the peer is queued again. *)
Theorem next_requeues_at_tail (sid : string) (s : Server) (c : ClientInfo) :
  keyed (sessionIdToClient s) →
  reg_get (sessionIdToClient s) sid = Some c →
  0 < length (interests c) →
  let s' := handleNext sid s in
  last (waitingOf (mode c) (queues s')) = Some sid
  ∧ timers s' = timers s ++ [NextAttempt c]
  ∧ (∃ r, reg_get (sessionIdToClient s') sid = Some r ∧ sameSession c r
          ∧ truthy (pairedWith r) = None)
  ∧ match truthy (pairedWith c) ≫= reg_get (sessionIdToClient s) with
    | Some peer =>
        outbox s' = outbox s ++ [(ws peer, Debug "peer_skipped")]
        ∧ (sessionId peer ≠ sid →
           (pairedWith <$> reg_get (sessionIdToClient s') (sessionId peer)) = Some None
           ∧ sessionId peer ∈ waitingOf (mode peer) (queues s'))
    | None => outbox s' = outbox s
    end.
Proof.
  intros K Hget Hlen s'. subst s'.
  pose proof (keyed_get _ _ _ K Hget) as Hid.
  unfold handleNext. rewrite Hget. cbv zeta. rewrite decide_True by assumption.
  cbn [setTimeout setTimers setQueues sessionIdToClient queues timers outbox].
  rewrite enqueueClient_waiting, last_snoc, Hid.
  destruct (truthy (pairedWith c)) as [p|] eqn:Hp; cbn [mbind option_bind].
  - cbn [setRegistry sessionIdToClient queues timers outbox].
    rewrite dropPeer_timers.
    split; [reflexivity|]. split; [reflexivity|]. split.
    { destruct (dropPeer_sameSession c "peer_skipped" true s sid c Hget)
        as (r1 & Hr1 & S1).
      rewrite reg_get_update, decide_True, Hr1 by reflexivity.
      eexists. split; [reflexivity|]. split; [|reflexivity].
      eapply sameSession_trans; [exact S1 | apply sameSession_setPairedWith]. }
    destruct (reg_get (sessionIdToClient s) p) as [peer|] eqn:Hpeer.
    + rewrite (dropPeer_paired c _ _ s p peer Hp Hpeer).
      cbn [sessionIdToClient queues outbox]. split; [reflexivity|].
      intros Hne. pose proof (keyed_get _ _ _ K Hpeer) as Hpid. split.
      * rewrite !reg_get_update, Hpid, Hpeer.
        rewrite decide_False by congruence. now rewrite decide_True.
      * destruct (decide (mode peer = mode c)) as [E|E].
        -- rewrite E, enqueueClient_waiting, removeFromQueues_waiting, <- E.
           rewrite enqueueClient_waiting. apply elem_of_app. left.
           apply elem_of_removeFirst_ne; [congruence|].
           apply elem_of_app. right. left.
        -- unfold enqueueClient at 1. rewrite waitingOf_withMode_ne by congruence.
           destruct (removeFromQueues_other_mode
                       (enqueueClient (queues s) peer) c (mode peer)) as [-> _];
             [assumption|].
           rewrite enqueueClient_waiting. apply elem_of_app. right. left.
    + now rewrite (dropPeer_absent c _ _ s p Hp Hpeer).
  - split; [reflexivity|]. split; [reflexivity|]. split; [|reflexivity].
    exists c. split; [assumption|]. split; [apply sameSession_refl | assumption].
Qed.


(** X20.  Next by a paired session without interests while nobody else waits
    in its mode: the skipped peer is put back in the FIFO first, so the
    immediate attempt of the requester finds that same peer, and the two are
    paired with each other again.  The peer receives [peer_skipped] and then
    [paired], the requester receives [paired]. *)
Theorem next_alone_repairs_same_peer (sid p : string) (s : Server)
  (c peer : ClientInfo) :
  keyed (sessionIdToClient s) →
  reg_get (sessionIdToClient s) sid = Some c →
  interests c = [] →
  truthy (pairedWith c) = Some p →
  reg_get (sessionIdToClient s) p = Some peer →
  p ≠ sid →
  mode peer = mode c →
  (∀ x, x ∈ waitingOf (mode c) (queues s) → x = sid) →
  let s' := handleNext sid s in
  (pairedWith <$> reg_get (sessionIdToClient s') sid) = Some (Some p)
  ∧ (pairedWith <$> reg_get (sessionIdToClient s') p) = Some (Some sid)
  ∧ outbox s' = outbox s ++ [(ws peer, Debug "peer_skipped");
                             (ws c, Paired p); (ws peer, Paired sid)]
  ∧ timers s' = timers s.
Proof.
  intros K Hget Hints Hp Hpeer Hne Hmode Halone s'. subst s'.
  pose proof (keyed_get _ _ _ K Hget) as Hid.
  pose proof (keyed_get _ _ _ K Hpeer) as Hpid.
  unfold handleNext. rewrite Hget, Hp. cbv zeta.
  rewrite decide_False by (rewrite Hints; cbn; lia).
  rewrite (dropPeer_paired c _ _ s p peer Hp Hpeer).
  cbn [setRegistry setQueues sessionIdToClient queues timers outbox].
  set (s3 := setQueues (enqueueClient _ c) _).
  set (q3 := enqueueClient (removeFromQueues (enqueueClient (queues s) peer) c) c).
  assert (Hreg3 : sessionIdToClient s3
                  = reg_update (reg_update (sessionIdToClient s) p (setPairedWith None))
                      sid (setPairedWith None)) by reflexivity.
  assert (Hq3 : queues s3 = q3) by reflexivity.
  assert (Hout3 : outbox s3 = outbox s ++ [(ws peer, Debug "peer_skipped")])
    by reflexivity.
  assert (Ht3 : timers s3 = timers s) by reflexivity.
  clearbody s3.
  assert (K3 : keyed (sessionIdToClient s3))
    by (rewrite Hreg3; now repeat apply keyed_update).
  assert (Hcur : reg_get (sessionIdToClient s3) (sessionId c)
                 = Some (setPairedWith None c)).
  { rewrite Hreg3, !reg_get_update, Hid, Hget.
    rewrite decide_True by reflexivity. now rewrite decide_False. }
  assert (Hother : reg_get (sessionIdToClient s3) p = Some (setPairedWith None peer)).
  { rewrite Hreg3, !reg_get_update, Hpeer.
    rewrite decide_False by congruence. now rewrite decide_True. }
  assert (Hw : waitingOf (mode c) q3
               = removeFirst sid (waitingOf (mode c) (queues s)) ++ p :: [sid]).
  { subst q3. rewrite enqueueClient_waiting, removeFromQueues_waiting.
    replace (waitingOf (mode c) (enqueueClient (queues s) peer))
      with (waitingOf (mode c) (queues s) ++ [sessionId peer])
      by (rewrite <- Hmode; symmetry; apply enqueueClient_waiting).
    rewrite Hid, Hpid.
    rewrite removeFirst_app_ne by assumption. now rewrite <- app_assoc. }
  assert (Htry : tryMatch (queues s3) c (sessionIdToClient s3)
                 = (Some (mkPair (sessionId c) p),
                    removeFromQueues (removeFromQueues q3 c) (setPairedWith None peer))).
  { rewrite Hq3, tryMatch_no_candidate, Hw.
    - rewrite (scanFifo_first _ c _ p [sid] (setPairedWith None peer));
        [reflexivity | | congruence | exact Hother | exact Hmode].
      intros x Hx [Hxne _]. apply elem_of_removeFirst in Hx.
      apply Halone in Hx. congruence.
    - intros x _ (_ & Hx & _). unfold candidateSet in Hx. rewrite Hints in Hx.
      now apply not_elem_of_empty in Hx. }
  destruct (matchFor_links c (setPairedWith None c) (ws c) s3
              (mkPair (sessionId c) p) K3 Hcur) as (other & Ho & Ha & Hb & _ & Hout & Ht).
  { now rewrite Htry. }
  cbn [pair_a pair_b] in Ho, Ha, Hb, Hout. rewrite Hother in Ho. injection Ho as <-.
  rewrite Hid in Ha, Hb, Hout. rewrite Ha, Hb, Hout, Ht, Hout3, Ht3.
  split; [reflexivity|]. split; [reflexivity|]. split; [|reflexivity].
  now rewrite <- app_assoc.
Qed.

End Properties.

(** * The properties at concrete inputs *)

(** The examples, witnesses and counterexamples are evaluated with
    [asciiStrings]: every string they contain is ASCII. *)
#[global] Existing Instance asciiStrings.

(** ** The two methods on ASCII strings *)

(** On ASCII strings, lower-casing a trimmed string leaves it trimmed. *)
Section AsciiFacts.

Lemma isWhite_lowerChar (a : ascii) : isWhite (lowerChar a) = isWhite a.
Proof. destruct a as [[] [] [] [] [] [] [] []]; reflexivity. Qed.

Lemma trimStart_lower (s : string) :
  trimStart (asciiToLowerCase s) = asciiToLowerCase (trimStart s).
Proof.
  induction s as [|a s IH]; simpl; [reflexivity|].
  rewrite isWhite_lowerChar. destruct (isWhite a); [exact IH | reflexivity].
Qed.

Lemma trimEnd_lower (s : string) :
  trimEnd (asciiToLowerCase s) = asciiToLowerCase (trimEnd s).
Proof.
  induction s as [|a s IH]; simpl; [reflexivity|].
  rewrite IH, isWhite_lowerChar.
  destruct (trimEnd s); simpl; [destruct (isWhite a)|]; reflexivity.
Qed.

Lemma asciiTrim_lower (s : string) :
  asciiTrim (asciiToLowerCase s) = asciiToLowerCase (asciiTrim s).
Proof. unfold asciiTrim. now rewrite trimStart_lower, trimEnd_lower. Qed.

Lemma trimEnd_idem (s : string) : trimEnd (trimEnd s) = trimEnd s.
Proof.
  induction s as [|a s IH]; simpl; [reflexivity|].
  destruct (trimEnd s) as [|b t] eqn:E.
  - destruct (isWhite a) eqn:W; simpl; [reflexivity | now rewrite W].
  - change (trimEnd (String a (String b t)))
      with (match trimEnd (String b t) with
            | EmptyString => if isWhite a then EmptyString else String a EmptyString
            | u => String a u
            end).
    now rewrite IH.
Qed.

(** A string whose first character is not white keeps it under [trimEnd]. *)
Lemma trimEnd_head (a : ascii) (s : string) :
  isWhite a = false → ∃ t, trimEnd (String a s) = String a t.
Proof.
  intros W. simpl. destruct (trimEnd s); rewrite ?W; eauto.
Qed.

Lemma trimStart_shape (s : string) :
  trimStart s = "" ∨ ∃ a t, trimStart s = String a t ∧ isWhite a = false.
Proof.
  induction s as [|a s IH]; simpl; [now left|].
  destruct (isWhite a) eqn:W; [exact IH | right; eauto].
Qed.

Lemma asciiTrim_idem (s : string) : asciiTrim (asciiTrim s) = asciiTrim s.
Proof.
  unfold asciiTrim.
  destruct (trimStart_shape s) as [E | (a & t & E & W)]; rewrite E.
  - reflexivity.
  - destruct (trimEnd_head a t W) as [u Hu]. rewrite Hu.
    simpl trimStart. rewrite W. rewrite <- Hu. apply trimEnd_idem.
Qed.

Lemma asciiStrings_trimmed (t : string) :
  trim (toLowerCase (trim t)) = toLowerCase (trim t).
Proof.
  change (asciiTrim (asciiToLowerCase (asciiTrim t))
          = asciiToLowerCase (asciiTrim t)).
  now rewrite asciiTrim_lower, asciiTrim_idem.
Qed.

End AsciiFacts.

(** ** The cases of the test suite *)

Example pairs_fifo_when_no_interests :
  let a := Tests.mk Tests.idA text [] in
  let b := Tests.mk Tests.idB text [] in
  let map := reg_set (reg_set [] Tests.idA a) Tests.idB b in
  let q := enqueueClient (enqueueClient createQueues a) b in
  fst (tryMatch q b map) = Some (mkPair Tests.idB Tests.idA).
Proof. vm_compute. reflexivity. Qed.

Example removes_from_queues_on_leave :
  let a := Tests.mk Tests.idA text ["a"] in
  let map := reg_set [] Tests.idA a in
  let q := removeFromQueues (enqueueClient createQueues a) a in
  tryMatch q a map = (None, createQueues).
Proof. vm_compute. reflexivity. Qed.

(** ** The interests of a join, matching and removal *)

(** C8, as stated, fails: a repeated interest is stored twice. *)
Lemma sanitizeInterests_keeps_duplicates :
  sanitizeInterests (Some [JsString "music"; JsString " Music "; JsOther])
  = ["music"; "music"]
  ∧ ¬ NoDup (sanitizeInterests (Some [JsString "music"; JsString " Music "; JsOther])).
Proof.
  split; [reflexivity|].
  intros H. change (NoDup ["music"; "music"]) in H.
  apply NoDup_cons in H as [H _]. apply H. left.
Qed.

(** C10 at the first case of the test suite: [b] is matched with [a]. *)
Lemma tryMatch_partner_valid_witness :
  let a := Tests.mk Tests.idA text [] in
  let b := Tests.mk Tests.idB text [] in
  let map := reg_set (reg_set [] Tests.idA a) Tests.idB b in
  let q := enqueueClient (enqueueClient createQueues a) b in
  let p := mkPair Tests.idB Tests.idA in
  pair_a p = sessionId b
  ∧ pair_b p ≠ sessionId b
  ∧ pair_b p ∈ waitingOf (mode b) q
  ∧ ∃ other, reg_get map (pair_b p) = Some other ∧ mode other = mode b.
Proof.
  intros a b map q p. apply (tryMatch_partner_valid q b map p).
  vm_compute. reflexivity.
Defined.

(** Scenario 2 of the spec (and the second test case): A(video, music), then
    C(video), then B(video, music) are enqueued; matching B returns (B, A). *)
Lemma tryMatch_earliest_eligible_candidate_witness :
  let a := Tests.mk Tests.idA video ["music"] in
  let b := Tests.mk Tests.idB video ["music"] in
  let c := Tests.mk Tests.idC video [] in
  let map := reg_set (reg_set (reg_set [] Tests.idA a) Tests.idB b) Tests.idC c in
  let q := enqueueClient (enqueueClient (enqueueClient createQueues a) c) b in
  (tryMatch q b map).1 = Some (mkPair Tests.idB Tests.idA).
Proof.
  intros a b c map q.
  apply (tryMatch_earliest_eligible_candidate q b map [] [Tests.idC; Tests.idB]
           Tests.idA a).
  - vm_compute. reflexivity.
  - refine (bool_decide_unpack _ _). vm_compute. exact I.
  - vm_compute. reflexivity.
  - reflexivity.
  - intros x Hx. now apply elem_of_nil in Hx.
Defined.

(** C2, as stated, fails.  After [staleCandidateRun] the candidate set of B
    is non-empty (it holds [uA]) and [uA] is the earliest entry of the video
    FIFO, yet [tryMatch] on B returns the interest-less [uC]: [uA] is
    registered for text by now, and the scan passes over it. *)
Lemma tryMatch_passes_over_stale_candidate :
  let s := run initial staleCandidateRun in
  let b := mkClient uB video ["music"] 2 None in
  reg_get (sessionIdToClient s) uB = Some b
  ∧ waitingOf video (queues s) = [uA; uC; uB]
  ∧ candidateSet (queues s) b = {[uA]}
  ∧ candidateSet (queues s) (mkClient uC video [] 3 None) = ∅
  ∧ (tryMatch (queues s) b (sessionIdToClient s)).1 = Some (mkPair uB uC).
Proof. vm_compute. repeat split; reflexivity. Qed.

(** C6 on a session enqueued once: the second call makes it appear twice. *)
Lemma enqueueClient_appends_again_witness :
  let a := Tests.mk Tests.idA text ["a"] in
  let q := enqueueClient createQueues a in
  let q' := enqueueClient q a in
  waitingOf (mode a) q' = waitingOf (mode a) q ++ [sessionId a]
  ∧ ¬ NoDup (waitingOf (mode a) q')
  ∧ poolsOf (mode a) (enqueueClient q' a) = poolsOf (mode a) q'.
Proof.
  intros a q. apply (enqueueClient_appends_again q a).
  refine (bool_decide_unpack _ _). vm_compute. exact I.
Defined.

(** C6, as stated, fails: a second [enqueueClient] appends the id again. *)
Lemma enqueueClient_not_idempotent :
  let a := Tests.mk Tests.idA text [] in
  waiting_text (enqueueClient (enqueueClient createQueues a) a)
  = [Tests.idA; Tests.idA].
Proof. reflexivity. Qed.

(** Scenario 2 again: after B is matched with A, neither is queued or pooled
    (C, who has no interest, still waits). *)
Lemma tryMatch_removes_both_witness :
  let a := Tests.mk Tests.idA video ["music"] in
  let b := Tests.mk Tests.idB video ["music"] in
  let c := Tests.mk Tests.idC video [] in
  let map := reg_set (reg_set (reg_set [] Tests.idA a) Tests.idB b) Tests.idC c in
  let q := enqueueClient (enqueueClient (enqueueClient createQueues a) c) b in
  let q' := (tryMatch q b map).2 in
  (Tests.idB ∉ waitingOf video q')
  ∧ (Tests.idA ∉ waitingOf video q')
  ∧ (∀ k S, poolsOf video q' !! k = Some S → (Tests.idB ∉ S) ∧ (Tests.idA ∉ S))
  ∧ (∀ m, m ≠ video → waitingOf m q' = waitingOf m q ∧ poolsOf m q' = poolsOf m q).
Proof.
  intros a b c map q.
  assert (Hpools : poolsOf video q = {[ "music" := {[Tests.idA; Tests.idB]} ]}).
  { vm_compute. reflexivity. }
  assert (Hpooled : ∀ x, interests x = ["music"] →
                         pooledByInterests (poolsOf video q) x).
  { intros x Hx k S Hk _. rewrite Hpools in Hk.
    apply lookup_singleton_Some in Hk as [<- _]. rewrite Hx. left. }
  apply (tryMatch_removes_both q b map (mkPair Tests.idB Tests.idA) a).
  - vm_compute. reflexivity.
  - refine (bool_decide_unpack _ _). vm_compute. exact I.
  - vm_compute. reflexivity.
  - reflexivity.
  - now apply Hpooled.
  - now apply Hpooled.
Defined.

(** C3 fails in the code.  [tryMatch] announces "Remove both from queues and
    pools" where it has found a partner, but [removeFromQueues] takes a
    single occurrence of the id out of the FIFO ([indexOf], then
    [splice(idx, 1)]) and [enqueueClient] pushes without looking.  In
    [doubleJoinRun] A joins twice and then B joins: [tryMatch] for B returns
    the pair (B, A) and leaves an occurrence of A in the text FIFO.  A is now
    paired and queued at once, and the join of D yields A a second time: A
    and D are linked to each other, while B keeps a link to A that A no
    longer returns. *)
Theorem matched_session_stays_queued :
  let s2 := run initial (take 2 doubleJoinRun) in
  let s3 := run initial (take 3 doubleJoinRun) in
  let s4 := run initial doubleJoinRun in
  let b := mkClient uB text [] 2 None in
  let reg := reg_set (sessionIdToClient s2) uB b in
  let q := enqueueClient (queues s2) b in
  waitingOf text q = [uA; uA; uB]
  ∧ (tryMatch q b reg).1 = Some (mkPair uB uA)
  ∧ waitingOf text (tryMatch q b reg).2 = [uA]
  ∧ queues s3 = (tryMatch q b reg).2
  ∧ (pairedWith <$> reg_get (sessionIdToClient s3) uA) = Some (Some uB)
  ∧ (pairedWith <$> reg_get (sessionIdToClient s3) uB) = Some (Some uA)
  ∧ (pairedWith <$> reg_get (sessionIdToClient s4) uA) = Some (Some uD)
  ∧ (pairedWith <$> reg_get (sessionIdToClient s4) uD) = Some (Some uA)
  ∧ (pairedWith <$> reg_get (sessionIdToClient s4) uB) = Some (Some uA)
  ∧ outbox s4 = [ (1, Waiting); (1, Waiting);
                  (2, Paired uA); (1, Paired uB);
                  (4, Paired uA); (1, Paired uD) ].
Proof. vm_compute. repeat split; reflexivity. Qed.

(** ** The handlers *)

(** C7 on a second join of [uA], from another connection and for the other
    mode. *)
Lemma join_replaces_record_witness :
  let s := run initial [Message 1 (Join "text" uA (Some [JsString "x"]))] in
  let ints := Some [JsString "Y "] in
  let s' := handleJoin 2 "video" uA ints s in
  (∃ r, reg_get (sessionIdToClient s') uA = Some r
        ∧ sameSession (mkClient uA video (sanitizeInterests ints) 2 None) r)
  ∧ (sessionIdToClient s').*1 = (sessionIdToClient s).*1
  ∧ noNewError s s'
  ∧ (0 < length (sanitizeInterests ints) →
     waitingOf video (queues s') = waitingOf video (queues s) ++ [uA]).
Proof.
  intros s ints.
  apply (join_replaces_record 2 "video" video uA ints s
           (mkClient uA text ["x"] 1 None)); vm_compute; reflexivity.
Defined.

(** C7, as stated, fails: the second join of [uA] is answered with [waiting],
    not with an error, and the record of the first join is gone. *)
Lemma join_overwrites_existing_session :
  let s := run initial [Message 1 (Join "text" uA (Some [JsString "x"]))] in
  let s' := step s (Message 2 (Join "video" uA None)) in
  reg_get (sessionIdToClient s) uA = Some (mkClient uA text ["x"] 1 None)
  ∧ reg_get (sessionIdToClient s') uA = Some (mkClient uA video [] 2 None)
  ∧ outbox s' = [(2, Waiting)]
  ∧ waiting_text (queues s') = [uA] ∧ waiting_video (queues s') = [uA].
Proof. vm_compute. repeat split; reflexivity. Qed.

(** C4 on a paired reporter: A and B are paired, then A reports. *)
Lemma report_keeps_reporter_witness :
  let s := run initial [ Message 1 (Join "text" uA None);
                         Message 2 (Join "text" uB None) ] in
  let c := mkClient uA text [] 1 (Some uB) in
  let s' := handleReport uA "spam" s in
  reg_get (sessionIdToClient s') uA
    = Some (match truthy (pairedWith c) with
            | Some _ => setPairedWith None c
            | None => c
            end)
  ∧ (sessionIdToClient s').*1 = (sessionIdToClient s).*1
  ∧ queues s' = queues s
  ∧ reportsQueue s' = reportsQueue s ++ [(uA, "spam")]
  ∧ (∀ p peer,
       truthy (pairedWith c) = Some p →
       reg_get (sessionIdToClient s) p = Some peer →
       (pairedWith <$> reg_get (sessionIdToClient s') p) = Some None
       ∧ outbox s' = outbox s ++ [(ws peer, Debug "peer_reported")]).
Proof.
  intros s c. apply (report_keeps_reporter uA "spam" s c).
  vm_compute. reflexivity.
Defined.

(** C4, as stated, fails: after A's report a lookup of A still finds its
    session, whereas after A's leave it finds none. *)
Lemma report_does_not_remove_reporter :
  let s := run initial [ Message 1 (Join "text" uA None);
                         Message 2 (Join "text" uB None) ] in
  reg_get (sessionIdToClient (step s (Message 1 (Report uA "spam")))) uA
    = Some (mkClient uA text [] 1 None)
  ∧ reg_get (sessionIdToClient (step s (Message 1 (Leave uA)))) uA = None.
Proof. vm_compute. split; reflexivity. Qed.

(** C5 on the close of A's connection while A is paired with B. *)
Lemma close_is_leave_plus_requeue_witness :
  let s := run initial pairedRun in
  let c := mkClient uA text [] 1 (Some uB) in
  let sc := handleClose 1 s in
  let sl := disconnectAsLeave 1 s in
  sessionIdToClient sc = sessionIdToClient sl
  ∧ reg_get (sessionIdToClient sc) uA = None
  ∧ match truthy (pairedWith c) ≫= reg_get (sessionIdToClient s) with
    | None => queues sc = queues sl ∧ outbox sc = outbox sl
    | Some peer =>
        queues sl = removeFromQueues (queues s) c
        ∧ queues sc = removeFromQueues (enqueueClient (queues s) peer) c
        ∧ outbox sl = outbox s ++ [(ws peer, Debug "peer_left")]
        ∧ outbox sc = outbox s ++ [(ws peer, Debug "peer_disconnected")]
        ∧ (sessionId peer ≠ uA →
           (pairedWith <$> reg_get (sessionIdToClient sc) (sessionId peer)) = Some None
           ∧ sessionId peer ∈ waitingOf (mode peer) (queues sc))
    end.
Proof.
  intros s c. apply (close_is_leave_plus_requeue 1 s uA c).
  - apply run_keyed.
  - vm_compute. reflexivity.
Defined.

(** C5, as stated, fails: with A and B paired, the close of A's connection
    leaves B queued again, a leave of A does not. *)
Lemma close_requeues_peer_leave_does_not :
  let s := run initial pairedRun in
  waiting_text (queues (handleClose 1 s)) = [uB]
  ∧ waiting_text (queues (disconnectAsLeave 1 s)) = []
  ∧ queues (handleClose 1 s) ≠ queues (disconnectAsLeave 1 s).
Proof.
  split; [vm_compute; reflexivity|]. split; [vm_compute; reflexivity|].
  intros H. apply (f_equal waiting_text) in H. vm_compute in H. discriminate.
Qed.

(** ** Symmetry of the pairing and deferred attempts *)

(** C1 at [lateAttemptRun]: A's deferred attempt pairs A, who is paired with
    B already, with the waiting C.  B's link still names A, A's link names C:
    a one-sided link. *)
Theorem deferred_attempt_breaks_symmetry :
  let before := run initial (take 3 lateAttemptRun) in
  let after := run initial lateAttemptRun in
  (pairedWith <$> reg_get (sessionIdToClient before) uA) = Some (Some uB)
  ∧ (pairedWith <$> reg_get (sessionIdToClient before) uB) = Some (Some uA)
  ∧ (pairedWith <$> reg_get (sessionIdToClient after) uB) = Some (Some uA)
  ∧ (pairedWith <$> reg_get (sessionIdToClient after) uA) = Some (Some uC)
  ∧ (pairedWith <$> reg_get (sessionIdToClient after) uC) = Some (Some uA)
  ∧ ¬ symmetricPairing (sessionIdToClient after).
Proof.
  repeat (split; [vm_compute; reflexivity|]).
  intros H.
  specialize (H uB uA (mkClient uB text [] 2 (Some uA))
                (mkClient uA text ["x"] 1 (Some uC))).
  destruct H as [H _]; try (vm_compute; reflexivity).
  specialize (H eq_refl). discriminate.
Qed.

(** C9 at [staleNextRun]: the deferred attempt of A's [next] then runs for the
    departed A.  It takes the waiting C out of the FIFO; no pairing is made
    and no message is sent, and C is left registered, unpaired and unqueued. *)
Theorem stale_next_attempt_dequeues_waiting_session :
  let s := run initial staleNextRun in
  let s' := step s TimerFires in
  reg_get (sessionIdToClient s) uA = None
  ∧ timers s = [NextAttempt (mkClient uA text ["x"] 1 None)]
  ∧ waiting_text (queues s) = [uC]
  ∧ waiting_text (queues s') = []
  ∧ sessionIdToClient s' = sessionIdToClient s
  ∧ reg_get (sessionIdToClient s') uC = Some (mkClient uC text [] 3 None)
  ∧ outbox s' = outbox s.
Proof. vm_compute. repeat split; reflexivity. Qed.

(** ** Further properties of the matchmaking queues and of the server *)

(** X2 on scenario 2: removing B leaves A where it was. *)
Lemma removeFromQueues_spares_others_witness :
  let a := Tests.mk Tests.idA video ["music"] in
  let b := Tests.mk Tests.idB video ["music"] in
  let q := enqueueClient (enqueueClient createQueues a) b in
  let q' := removeFromQueues q b in
  (Tests.idA ∈ waitingOf (mode b) q' ↔ Tests.idA ∈ waitingOf (mode b) q)
  ∧ (∀ k, inPool (poolsOf (mode b) q') k Tests.idA
          ↔ inPool (poolsOf (mode b) q) k Tests.idA)
  ∧ filter (λ y, y ≠ sessionId b) (waitingOf (mode b) q')
    = filter (λ y, y ≠ sessionId b) (waitingOf (mode b) q).
Proof.
  intros a b q. apply (removeFromQueues_spares_others q b Tests.idA).
  vm_compute. discriminate.
Defined.

(** X3 on the third case of the test suite. *)
Lemma enqueue_then_remove_restores_witness :
  let a := Tests.mk Tests.idA text ["a"] in
  removeFromQueues (enqueueClient createQueues a) a = createQueues.
Proof.
  intros a. apply (enqueue_then_remove_restores createQueues a).
  - apply not_elem_of_nil.
  - apply Forall_cons. split; [|constructor].
    split; [discriminate | split; reflexivity].
  - intros k (S & HS & _). cbn in HS. now rewrite lookup_empty in HS.
  - intros k S HS. cbn in HS. now rewrite lookup_empty in HS.
Defined.

(** X4 on a queue that holds somebody else. *)
Lemma removeFromQueues_not_queued_witness :
  let a := Tests.mk Tests.idA text ["a"] in
  let b := Tests.mk Tests.idB text ["a"; "b"] in
  let q := enqueueClient createQueues a in
  removeFromQueues q b = q.
Proof.
  intros a b q.
  assert (Hpools : poolsOf text q = {[ "a" := {[Tests.idA]} ]})
    by (vm_compute; reflexivity).
  apply (removeFromQueues_not_queued q b).
  - refine (bool_decide_unpack _ _). vm_compute. exact I.
  - intros k (S & HS & Hx). change (mode b) with text in HS. rewrite Hpools in HS.
    apply lookup_singleton_Some in HS as [_ <-].
    apply elem_of_singleton in Hx. vm_compute in Hx. discriminate.
  - intros k S HS. change (mode b) with text in HS. rewrite Hpools in HS.
    apply lookup_singleton_Some in HS as [_ <-]. set_solver.
Defined.

(** X5 on an interest with a leading blank. *)
Lemma untrimmed_interest_survives_removal_witness :
  let a := Tests.mk Tests.idA text [" x"] in
  inPool (poolsOf (mode a) (removeFromQueues (enqueueClient createQueues a) a))
    (poolKey " x") (sessionId a).
Proof.
  intros a. apply (untrimmed_interest_survives_removal createQueues a " x").
  - left.
  - vm_compute. discriminate.
  - intros H. apply list_elem_of_singleton in H. vm_compute in H. discriminate.
Defined.


(** X8 on scenario 2: C stays queued when B is matched with A. *)
Lemma tryMatch_spares_bystanders_witness :
  let a := Tests.mk Tests.idA video ["music"] in
  let b := Tests.mk Tests.idB video ["music"] in
  let c := Tests.mk Tests.idC video [] in
  let map := reg_set (reg_set (reg_set [] Tests.idA a) Tests.idB b) Tests.idC c in
  let q := enqueueClient (enqueueClient (enqueueClient createQueues a) c) b in
  let p := mkPair Tests.idB Tests.idA in
  let q' := (tryMatch q b map).2 in
  (Tests.idC ∈ waitingOf (mode b) q' ↔ Tests.idC ∈ waitingOf (mode b) q)
  ∧ (∀ k, inPool (poolsOf (mode b) q') k Tests.idC
          ↔ inPool (poolsOf (mode b) q) k Tests.idC)
  ∧ filter (λ y, y ≠ pair_a p ∧ y ≠ pair_b p) (waitingOf (mode b) q')
    = filter (λ y, y ≠ pair_a p ∧ y ≠ pair_b p) (waitingOf (mode b) q).
Proof.
  intros a b c map q p.
  apply (tryMatch_spares_bystanders q b map p Tests.idC).
  - vm_compute. reflexivity.
  - repeat apply keyed_set; [apply keyed_nil | reflexivity ..].
  - vm_compute. discriminate.
  - vm_compute. discriminate.
Defined.

(** X10 on the record of B in [staleCandidateRun]. *)
Lemma reachable_interests_sanitized_witness :
  let r := mkClient uB video ["music"] 2 None in
  length (interests r) ≤ 10
  ∧ Forall storedToken (interests r)
  ∧ poolKey <$> interests r = toLowerCase <$> interests r.
Proof.
  intros r.
  destruct (reachable_interests_sanitized staleCandidateRun uB r)
    as (Hlen & Hstored & Hkeys).
  - vm_compute. reflexivity.
  - split; [exact Hlen|]. split; [exact Hstored|].
    apply Hkeys, asciiStrings_trimmed.
Defined.

(** X11 on the pool "music" of [staleCandidateRun]. *)
Lemma reachable_no_empty_pool_witness : ∃ x, x ∈ ({[uA; uB]} : gset string).
Proof.
  apply (reachable_no_empty_pool staleCandidateRun video "music" {[uA; uB]}).
  vm_compute. reflexivity.
Defined.

(** X13 on the id [uA]. *)
Lemma isValidUuidV4_shape_witness :
  String.length uA = 36
  ∧ String.get 14 uA = Some "4"%char
  ∧ ∀ i, i ∈ [8; 13; 18; 23] → String.get i uA = Some "-"%char.
Proof. apply (isValidUuidV4_shape uA). reflexivity. Defined.

(** X15 on a join whose mode is not one of the two. *)
Lemma join_rejected_witness :
  let s' := handleJoin 1 "audio" uA None initial in
  let code := if isValidUuidV4 uA then "invalid_mode" else "invalid_sessionId" in
  sessionIdToClient s' = sessionIdToClient initial
  ∧ queues s' = queues initial
  ∧ reportsQueue s' = reportsQueue initial
  ∧ timers s' = timers initial
  ∧ outbox s' = outbox initial ++ [(1, Error code)].
Proof. apply (join_rejected 1 "audio" uA None initial). right. reflexivity. Defined.

(** X16 on B's join in [pairedRun]: B is matched with the waiting A. *)
Lemma matchFor_links_both_witness :
  let s0 := run initial [Message 1 (Join "text" uA None)] in
  let b := mkClient uB text [] 2 None in
  let s := setQueues (enqueueClient (queues s0) b)
             (setRegistry (reg_set (sessionIdToClient s0) uB b) s0) in
  let p := mkPair uB uA in
  let s' := matchFor b 2 s in
  ∃ other,
    reg_get (sessionIdToClient s) (pair_b p) = Some other
    ∧ reg_get (sessionIdToClient s') (pair_a p)
      = Some (setPairedWith (Some (pair_b p)) b)
    ∧ reg_get (sessionIdToClient s') (pair_b p)
      = Some (setPairedWith (Some (pair_a p)) other)
    ∧ (∀ k, k ≠ pair_a p → k ≠ pair_b p →
            reg_get (sessionIdToClient s') k = reg_get (sessionIdToClient s) k)
    ∧ outbox s' = outbox s ++ [(ws b, Paired (pair_b p)); (ws other, Paired (pair_a p))]
    ∧ timers s' = timers s.
Proof.
  intros s0 b s p.
  apply (matchFor_links_both b b 2 s p).
  - apply keyed_set; [apply run_keyed | reflexivity].
  - vm_compute. reflexivity.
  - vm_compute. reflexivity.
Defined.


(** X18 on a connection that joined under two ids: after its close the second
    one is still registered on it. *)
Lemma close_removes_first_session_only_witness :
  let s := run initial [ Message 1 (Join "text" uA (Some [JsString "x"]));
                         Message 1 (Join "video" uB (Some [JsString "x"])) ] in
  let r := mkClient uB video ["x"] 1 None in
  ∃ r', reg_get (sessionIdToClient (handleClose 1 s)) uB = Some r'
        ∧ sameSession r r'.
Proof.
  intros s r.
  apply (close_removes_first_session_only 1 s uA (mkClient uA text ["x"] 1 None) uB r).
  - apply run_keyed.
  - vm_compute. reflexivity.
  - vm_compute. discriminate.
  - vm_compute. reflexivity.
Defined.

(** X19 on a paired session with an interest: A and B share "x", A's deferred
    attempt pairs them, then A asks for the next partner. *)
Lemma next_requeues_at_tail_witness :
  let s := run initial [ Message 1 (Join "text" uA (Some [JsString "x"]));
                         Message 2 (Join "text" uB (Some [JsString "x"]));
                         TimerFires ] in
  let c := mkClient uA text ["x"] 1 (Some uB) in
  let s' := handleNext uA s in
  last (waitingOf (mode c) (queues s')) = Some uA
  ∧ timers s' = timers s ++ [NextAttempt c]
  ∧ (∃ r, reg_get (sessionIdToClient s') uA = Some r ∧ sameSession c r
          ∧ truthy (pairedWith r) = None)
  ∧ match truthy (pairedWith c) ≫= reg_get (sessionIdToClient s) with
    | Some peer =>
        outbox s' = outbox s ++ [(ws peer, Debug "peer_skipped")]
        ∧ (sessionId peer ≠ uA →
           (pairedWith <$> reg_get (sessionIdToClient s') (sessionId peer)) = Some None
           ∧ sessionId peer ∈ waitingOf (mode peer) (queues s'))
    | None => outbox s' = outbox s
    end.
Proof.
  intros s c. apply (next_requeues_at_tail uA s c).
  - apply run_keyed.
  - vm_compute. reflexivity.
  - cbn. lia.
Defined.

(** X20 on [pairedRun]: A skips B while nobody else is there and gets B
    again. *)
Lemma next_alone_repairs_same_peer_witness :
  let s := run initial pairedRun in
  let c := mkClient uA text [] 1 (Some uB) in
  let peer := mkClient uB text [] 2 (Some uA) in
  let s' := handleNext uA s in
  (pairedWith <$> reg_get (sessionIdToClient s') uA) = Some (Some uB)
  ∧ (pairedWith <$> reg_get (sessionIdToClient s') uB) = Some (Some uA)
  ∧ outbox s' = outbox s ++ [(ws peer, Debug "peer_skipped");
                             (ws c, Paired uB); (ws peer, Paired uA)]
  ∧ timers s' = timers s.
Proof.
  intros s c peer.
  apply (next_alone_repairs_same_peer uA uB s c peer).
  - apply run_keyed.
  - vm_compute. reflexivity.
  - reflexivity.
  - reflexivity.
  - vm_compute. reflexivity.
  - vm_compute. discriminate.
  - reflexivity.
  - intros x Hx. vm_compute in Hx. now apply elem_of_nil in Hx.
Defined.

(** * The rate limiter *)

Section RateLimiter.

Implicit Types (w : gmap string WindowInfo) (ip : string) (now : Z).

(** Calls inside the window of an entry count up from its count. *)
Lemma checkMany_in_window ip t0 (ts : list Z) w n :
  w !! ip = Some (mkWindow t0 n) →
  Forall (λ t, t - t0 ≤ rateLimiterConfig_windowMs)%Z ts →
  (checkMany ip ts w).1
  = (λ j, bool_decide (n + j ≤ rateLimiterConfig_max)) <$> seq 1 (length ts).
Proof.
  revert w n. induction ts as [|t ts IH]; intros w n Hw Hts; [reflexivity|].
  apply Forall_cons in Hts as [Ht Hts]. cbn [checkMany].
  unfold checkRateLimit at 1. rewrite Hw. cbn [windowStart count].
  rewrite decide_False by (unfold rateLimiterConfig_windowMs in *; lia).
  specialize (IH (<[ip := mkWindow t0 (n + 1)]> w) (n + 1)
                (lookup_insert_eq _ _ _) Hts).
  destruct (checkMany ip ts _) as [oks w'] eqn:E. cbn [fst] in IH |- *.
  cbn [length seq fmap list_fmap]. f_equal.
  rewrite IH. rewrite <- (fmap_S_seq 1), <- list_fmap_compose.
  apply list_fmap_ext. intros i j _. cbn. apply bool_decide_ext. lia.
Qed.

End RateLimiter.

(** X21.  An address is refused exactly when its window is still open (it
    began at most 60000 ms before the call) and 30 or more calls have been
    counted in it; a first call and a call after the window has run out are
    always let through. *)
Theorem checkRateLimit_denied_iff (now : Z) (ip : string)
  (w : gmap string WindowInfo) :
  (checkRateLimit now ip w).1 = false ↔
  ∃ info, w !! ip = Some info
          ∧ (now - windowStart info ≤ 60000)%Z
          ∧ 30 ≤ count info.
Proof.
  unfold checkRateLimit, rateLimiterConfig_windowMs, rateLimiterConfig_max.
  destruct (w !! ip) as [info|] eqn:E.
  - case_decide as Hwin; cbn [fst].
    + split; [discriminate|]. intros (i & [= <-] & H1 & _). lia.
    + rewrite bool_decide_eq_false. cbn [count]. split.
      * intros H. exists info. repeat split; [lia | lia].
      * intros (i & [= <-] & _ & H2). lia.
  - cbn [fst]. split; [discriminate|]. intros (i & H & _). discriminate.
Qed.

(** X22.  Of the calls an address makes within 60000 ms of its first call,
    the first 30 are let through and every later one is refused: the answer to
    call number [k] (counting from 0) is whether [k < 30]. *)
Theorem rate_limit_burst (ip : string) (w : gmap string WindowInfo) (t0 : Z)
  (ts : list Z) :
  w !! ip = None →
  Forall (λ t, t - t0 ≤ 60000)%Z ts →
  (checkMany ip (t0 :: ts) w).1
  = (λ k, bool_decide (k < 30)) <$> seq 0 (S (length ts)).
Proof.
  intros Hw Hts. cbn [checkMany]. unfold checkRateLimit at 1. rewrite Hw.
  pose proof (checkMany_in_window ip t0 ts (<[ip := mkWindow t0 1]> w) 1
                (lookup_insert_eq _ _ _) Hts) as H.
  destruct (checkMany ip ts _) as [oks w'] eqn:E. cbn [fst] in H |- *.
  rewrite H. reflexivity.
Qed.

(** X22 on 31 calls in the same millisecond: the last one is refused. *)
Lemma rate_limit_burst_witness :
  (checkMany "10.0.0.1" (0%Z :: replicate 30 0%Z) ∅).1
  = (λ k, bool_decide (k < 30)) <$> seq 0 (S (length (replicate 30 0%Z))).
Proof.
  apply (rate_limit_burst "10.0.0.1" ∅ 0%Z (replicate 30 0%Z)).
  - apply lookup_empty.
  - apply Forall_replicate. lia.
Defined.

(** * The reconnecting client *)

Section Reconnect.

Implicit Types (c : ResilientWS) (e : ClientEvent).

Lemma backoffInRange_step c e : backoffInRange c → backoffInRange (clientStep c e).
Proof.
  intros [Hb Hp]. destruct e as [| |i|]; cbn [clientStep].
  - split; [cbn; lia | assumption].
  - unfold onclose, maxBackoffMs. destruct (shouldRun c); [|now split].
    split; cbn [backoffMs pendingReconnects]; [lia|].
    apply Forall_app. split; [assumption|]. constructor; [lia | constructor].
  - destruct (pendingReconnects c !! i); [|now split].
    unfold connect. cbn [shouldRun].
    destruct (shouldRun c); (split; [assumption|]);
      cbn [pendingReconnects]; now apply Forall_delete.
  - now split.
Qed.

Lemma stopped_step c e :
  shouldRun c = false →
  shouldRun (clientStep c e) = false
  ∧ socketsOpened (clientStep c e) = socketsOpened c
  ∧ pendingReconnects (clientStep c e) `sublist_of` pendingReconnects c.
Proof.
  intros H. destruct e as [| |i|]; cbn [clientStep].
  - now repeat split.
  - unfold onclose. rewrite H. now repeat split.
  - destruct (pendingReconnects c !! i); [|now repeat split].
    unfold connect. cbn [shouldRun]. rewrite H.
    cbn [shouldRun socketsOpened pendingReconnects].
    split; [reflexivity|]. split; [reflexivity|]. apply sublist_delete.
  - now repeat split.
Qed.

Lemma reconnect_round c :
  shouldRun c = true → pendingReconnects c = [] →
  clientStep (clientStep c SocketClosed) (ReconnectFires 0)
  = mkResilientWS (Nat.min 5000 (backoffMs c * 2)) true [] (S (socketsOpened c)).
Proof.
  destruct c as [b r p o]. cbn [shouldRun pendingReconnects]. intros -> ->.
  reflexivity.
Qed.

End Reconnect.

(** X23.  Whatever happens to a client, its backoff and the delay of each
    reconnect it has scheduled stay between 500 ms and 5000 ms. *)
Theorem backoff_always_in_range (es : list ClientEvent) :
  let c := clientRun newResilientWS es in
  500 ≤ backoffMs c ≤ 5000
  ∧ Forall (λ d, 500 ≤ d ≤ 5000) (pendingReconnects c).
Proof.
  cbv zeta. change (backoffInRange (clientRun newResilientWS es)).
  unfold clientRun.
  assert (H0 : backoffInRange newResilientWS) by (split; [cbn; lia | constructor]).
  revert H0. generalize newResilientWS.
  induction es as [|e es IH]; intros c H; [assumption|].
  cbn [foldl]. now apply IH, backoffInRange_step.
Qed.

(** X24.  [close()] is final: after it, whatever events follow (socket
    closes, pending reconnect timers expiring, opens), no further [WebSocket]
    is created and no further reconnect is scheduled. *)
Theorem close_is_final (c : ResilientWS) (es : list ClientEvent) :
  let c' := clientRun (clientClose c) es in
  shouldRun c' = false
  ∧ socketsOpened c' = socketsOpened c
  ∧ pendingReconnects c' `sublist_of` pendingReconnects c.
Proof.
  cbv zeta. unfold clientRun.
  assert (H0 : shouldRun (clientClose c) = false
               ∧ socketsOpened (clientClose c) = socketsOpened c
               ∧ pendingReconnects (clientClose c) `sublist_of` pendingReconnects c)
    by now repeat split.
  revert H0. generalize (clientClose c).
  induction es as [|e es IH]; intros c0 H; [assumption|].
  cbn [foldl]. apply IH. destruct H as (H1 & H2 & H3).
  destruct (stopped_step c0 e H1) as (G1 & G2 & G3).
  split; [assumption|]. split; [congruence|]. now transitivity (pendingReconnects c0).
Qed.

(** X25.  Exponential backoff: starting with a backoff of 500 ms and nothing
    pending, after [n] rounds in which the socket closes and the reconnect
    timer then expires, without the socket ever opening, [n] further sockets
    have been created and the next delay is 500 * 2^n ms, capped at 5000. *)
Theorem backoff_doubles_until_cap (c : ResilientWS) (n : nat) :
  shouldRun c = true →
  backoffMs c = 500 →
  pendingReconnects c = [] →
  let c' := clientRun c (concat (replicate n [SocketClosed; ReconnectFires 0])) in
  backoffMs c' = Nat.min 5000 (500 * 2 ^ n)
  ∧ socketsOpened c' = socketsOpened c + n
  ∧ pendingReconnects c' = []
  ∧ shouldRun c' = true.
Proof.
  intros Hrun Hb Hp. cbv zeta.
  assert (G : ∀ m c0, shouldRun c0 = true → pendingReconnects c0 = [] →
            let c' := clientRun c0 (concat (replicate m [SocketClosed; ReconnectFires 0])) in
            backoffMs c' = Nat.iter m (λ b, Nat.min 5000 (b * 2)) (backoffMs c0)
            ∧ socketsOpened c' = socketsOpened c0 + m
            ∧ pendingReconnects c' = [] ∧ shouldRun c' = true).
  { induction m as [|m IH]; intros c0 H1 H2; cbv zeta.
    - cbn. repeat split; [lia | assumption | assumption].
    - cbn [replicate concat app]. unfold clientRun. cbn [foldl].
      rewrite (reconnect_round c0 H1 H2).
      match goal with |- context [foldl clientStep ?c1 _] =>
        destruct (IH c1 eq_refl eq_refl) as (I1 & I2 & I3 & I4) end.
      unfold clientRun in I1, I2, I3, I4. rewrite I1, I2, I3, I4.
      cbn [backoffMs socketsOpened].
      repeat split; [|lia].
      now rewrite Nat.iter_succ_r. }
  destruct (G n c Hrun Hp) as (G1 & G2 & G3 & G4).
  rewrite G1, G2, G3, G4, Hb. repeat split.
  clear. induction n as [|n IH]; [reflexivity|].
  rewrite Nat.iter_succ, IH, Nat.pow_succ_r'. lia.
Qed.

(** X25 on four rounds from a new client: 500, 1000, 2000, 4000 ms have been
    waited and the next delay is the cap. *)
Lemma backoff_doubles_until_cap_witness :
  let c' := clientRun newResilientWS
              (concat (replicate 4 [SocketClosed; ReconnectFires 0])) in
  backoffMs c' = Nat.min 5000 (500 * 2 ^ 4)
  ∧ socketsOpened c' = socketsOpened newResilientWS + 4
  ∧ pendingReconnects c' = []
  ∧ shouldRun c' = true.
Proof. apply (backoff_doubles_until_cap newResilientWS 4); reflexivity. Defined.

(** * The initiator of the negotiation *)

(** X26.  Of two paired sessions with different ids exactly one computes that
    it is the caller; a session compared with its own id is not the caller. *)
Theorem exactly_one_caller (a b : string) :
  a ≠ b →
  iAmCaller a b = negb (iAmCaller b a) ∧ iAmCaller a a = false.
Proof.
  intros N. unfold iAmCaller, String.ltb. split.
  - rewrite (String.compare_antisym b a).
    destruct (String.compare a b) eqn:E; try reflexivity.
    apply String.compare_eq_iff in E. contradiction.
  - pose proof (String.compare_antisym a a) as H.
    destruct (String.compare a a); try discriminate H; reflexivity.
Qed.

(** X26 on [uA] and [uB]. *)
Lemma exactly_one_caller_witness :
  iAmCaller uA uB = negb (iAmCaller uB uA) ∧ iAmCaller uA uA = false.
Proof. apply (exactly_one_caller uA uB). vm_compute. discriminate. Defined.

(** * The Redis-backed helpers *)

Section RedisFacts.

Import RedisMatchmaking.

Implicit Types (st : Store) (key mode sid v x : string) (ints : list string).

Lemma lRange_lRem k key v st :
  lRange k (lRem key v st)
  = if decide (k = key) then filter (λ x, x ≠ v) (lRange k st) else lRange k st.
Proof.
  unfold lRem, lRange at 1. cbn [lists].
  destruct (decide (k = key)) as [->|N].
  - case_decide as E.
    + rewrite lookup_delete_eq. now rewrite E.
    + now rewrite lookup_insert_eq.
  - case_decide; [now rewrite lookup_delete_ne | now rewrite lookup_insert_ne].
Qed.

Lemma sMembers_sRem k key v st :
  sMembers k (sRem key v st)
  = if decide (k = key) then sMembers k st ∖ {[v]} else sMembers k st.
Proof.
  unfold sRem, sMembers at 1. cbn [sets].
  destruct (decide (k = key)) as [->|N].
  - case_decide as E.
    + rewrite lookup_delete_eq. apply size_empty_inv in E.
      apply leibniz_equiv in E. now rewrite E.
    + now rewrite lookup_insert_eq.
  - case_decide; [now rewrite lookup_delete_ne | now rewrite lookup_insert_ne].
Qed.

Lemma lRange_sRem k key v st : lRange k (sRem key v st) = lRange k st.
Proof. reflexivity. Qed.

Lemma sMembers_lRem k key v st : sMembers k (lRem key v st) = sMembers k st.
Proof. reflexivity. Qed.

Lemma lRange_sRem_fold k mode sid ints st :
  lRange k (foldl (λ acc i, sRem (poolKey mode i) sid acc) st ints) = lRange k st.
Proof.
  revert st. induction ints as [|i ints IH]; intros st; [reflexivity|].
  cbn [foldl]. now rewrite IH.
Qed.

Lemma sMembers_sRem_fold k mode sid ints st :
  sMembers k (foldl (λ acc i, sRem (poolKey mode i) sid acc) st ints)
  = if decide (k ∈ poolKey mode <$> ints) then sMembers k st ∖ {[sid]}
    else sMembers k st.
Proof.
  revert st. induction ints as [|i ints IH]; intros st.
  - rewrite decide_False; [reflexivity|]. apply not_elem_of_nil.
  - cbn [foldl]. rewrite IH, sMembers_sRem, fmap_cons.
    destruct (decide (k ∈ poolKey mode <$> ints)) as [H|H];
      destruct (decide (k = poolKey mode i)) as [E|E].
    + rewrite decide_True by (apply elem_of_cons; auto). set_solver.
    + rewrite decide_True by (apply elem_of_cons; auto). reflexivity.
    + rewrite decide_True by (apply elem_of_cons; auto). reflexivity.
    + rewrite decide_False; [reflexivity|].
      intros H'. apply elem_of_cons in H' as [H'|H']; contradiction.
Qed.

Lemma lRange_removeFromAll k st mode sid ints :
  lRange k (removeFromAll st mode sid ints)
  = if decide (k = queueKey mode) then filter (λ x, x ≠ sid) (lRange k st)
    else lRange k st.
Proof. unfold removeFromAll. now rewrite lRange_sRem_fold, lRange_lRem. Qed.

Lemma sMembers_removeFromAll k st mode sid ints :
  sMembers k (removeFromAll st mode sid ints)
  = if decide (k ∈ poolKey mode <$> ints) then sMembers k st ∖ {[sid]}
    else sMembers k st.
Proof. unfold removeFromAll. now rewrite sMembers_sRem_fold. Qed.

Lemma scanMembers_Some sid (l members : list string) cand :
  scanMembers sid l members = Some cand →
  cand ≠ sid ∧ cand ∈ l ∧ cand ∈ members.
Proof.
  induction members as [|y members IH]; cbn [scanMembers]; [discriminate|].
  intros H.
  assert (rec : scanMembers sid l members = Some cand →
                cand ≠ sid ∧ cand ∈ l ∧ cand ∈ y :: members).
  { intros H'. destruct (IH H') as (? & ? & ?). repeat split; try assumption.
    now right. }
  destruct (decide (y = sid)); [now apply rec|].
  destruct (decide (y ∈ l)); [|now apply rec].
  injection H as <-. repeat split; try assumption. left.
Qed.

Lemma scanMembers_None sid (l members : list string) :
  scanMembers sid l members = None ↔ ∀ x, x ∈ members → x = sid ∨ x ∉ l.
Proof.
  induction members as [|y members IH]; cbn [scanMembers].
  - split; [|reflexivity]. intros _ x H. now apply elem_of_nil in H.
  - assert (skip : y = sid ∨ y ∉ l →
              (scanMembers sid l members = None ↔
               ∀ x, x ∈ y :: members → x = sid ∨ x ∉ l)).
    { intros Hy. rewrite IH. split.
      - intros H x Hx. apply elem_of_cons in Hx as [->|Hx]; auto.
      - intros H x Hx. apply H. now right. }
    destruct (decide (y = sid)); [apply skip; now left|].
    destruct (decide (y ∈ l)); [|apply skip; now right].
    split; [discriminate|]. intros H. destruct (H y); [left | |]; contradiction.
Qed.

Lemma scanInterests_Some order st mode sid ints cand :
  scanInterests order st mode sid ints = Some cand →
  cand ≠ sid ∧ cand ∈ lRange (queueKey mode) st
  ∧ ∃ i, i ∈ ints ∧ cand ∈ order (sMembers (poolKey mode i) st).
Proof.
  induction ints as [|i ints IH]; cbn [scanInterests]; [discriminate|].
  destruct (scanMembers sid _ _) as [c|] eqn:E.
  - intros [= <-]. apply scanMembers_Some in E as (? & ? & ?).
    repeat split; try assumption. exists i. split; [left | assumption].
  - intros H. destruct (IH H) as (? & ? & j & ? & ?).
    repeat split; try assumption. exists j. split; [now right | assumption].
Qed.

Lemma scanInterests_None order st mode sid ints :
  scanInterests order st mode sid ints = None →
  ∀ i x, i ∈ ints → x ∈ order (sMembers (poolKey mode i) st) →
         x = sid ∨ x ∉ lRange (queueKey mode) st.
Proof.
  induction ints as [|i ints IH]; cbn [scanInterests].
  - intros _ j x Hj. now apply elem_of_nil in Hj.
  - destruct (scanMembers sid _ _) as [c|] eqn:E; [discriminate|].
    intros H j x Hj Hx. apply elem_of_cons in Hj as [->|Hj].
    + now apply (proj1 (scanMembers_None _ _ _) E).
    + now apply (IH H j).
Qed.

Lemma firstOther_Some sid (all : list string) id :
  firstOther sid all = Some id → id ≠ sid ∧ id ∈ all.
Proof.
  induction all as [|y all IH]; cbn [firstOther]; [discriminate|].
  case_decide.
  - intros [= <-]. split; [assumption | left].
  - intros H'. destruct (IH H'). split; [assumption | now right].
Qed.

Lemma firstOther_None sid (all : list string) :
  firstOther sid all = None ↔ ∀ x, x ∈ all → x = sid.
Proof.
  induction all as [|y all IH]; cbn [firstOther].
  - split; [|reflexivity]. intros _ x H. now apply elem_of_nil in H.
  - case_decide as E.
    + split; [discriminate|]. intros H. exfalso. apply E, H. left.
    + rewrite IH. split.
      * intros H x Hx. apply elem_of_cons in Hx as [->|Hx]; auto.
      * intros H x Hx. apply H. now right.
Qed.

Lemma tryDequeuePair_cases order st mode sid ints cand st' :
  tryDequeuePair order st mode sid ints = (Some cand, st') →
  cand ≠ sid ∧ cand ∈ lRange (queueKey mode) st
  ∧ st' = lRem (queueKey mode) cand (removeFromAll st mode sid ints).
Proof.
  unfold tryDequeuePair.
  destruct (scanInterests order st mode sid ints) as [c|] eqn:E.
  - intros [= <- <-]. apply scanInterests_Some in E as (? & ? & _). now repeat split.
  - destruct (firstOther sid _) as [c|] eqn:F; [|discriminate].
    intros [= <- <-]. apply firstOther_Some in F as [? ?]. now repeat split.
Qed.

End RedisFacts.

(** X27.  [removeFromAll] takes the session out of the queue of the mode,
    every occurrence of it, and out of the pool of each of the given
    interests; no other id is added to or removed from any list or set. *)
Theorem redis_removeFromAll_gone (st : RedisMatchmaking.Store)
  (mode sid : string) (ints : list string) :
  let st' := RedisMatchmaking.removeFromAll st mode sid ints in
  (sid ∉ RedisMatchmaking.lRange (RedisMatchmaking.queueKey mode) st')
  ∧ (∀ i, i ∈ ints →
          sid ∉ RedisMatchmaking.sMembers (RedisMatchmaking.poolKey mode i) st')
  ∧ (∀ key, filter (λ x, x ≠ sid) (RedisMatchmaking.lRange key st')
            = filter (λ x, x ≠ sid) (RedisMatchmaking.lRange key st))
  ∧ (∀ key x, x ≠ sid →
       (x ∈ RedisMatchmaking.sMembers key st' ↔ x ∈ RedisMatchmaking.sMembers key st)).
Proof.
  cbv zeta. split; [|split; [|split]].
  - rewrite lRange_removeFromAll, decide_True by reflexivity.
    intros H. apply list_elem_of_filter in H as [H _]. now apply H.
  - intros i Hi. rewrite sMembers_removeFromAll.
    rewrite decide_True by (apply list_elem_of_fmap; now exists i). set_solver.
  - intros key. rewrite lRange_removeFromAll. case_decide; [|reflexivity].
    apply list_filter_filter_l. tauto.
  - intros key x N. rewrite sMembers_removeFromAll. case_decide; set_solver.
Qed.

(** X28.  When [tryDequeuePair] returns an id, that id is not the caller's
    and was in the queue of the mode; afterwards neither the caller nor the
    returned id is in that queue, the caller is in no pool of its interests,
    and the pool memberships of every other id, the returned one included,
    are what they were (the returned id stays in its pools). *)
Theorem redis_tryDequeuePair_some (order : gset string → list string)
  (st st' : RedisMatchmaking.Store) (mode sid : string) (ints : list string)
  (cand : string) :
  RedisMatchmaking.tryDequeuePair order st mode sid ints = (Some cand, st') →
  cand ≠ sid
  ∧ cand ∈ RedisMatchmaking.lRange (RedisMatchmaking.queueKey mode) st
  ∧ (sid ∉ RedisMatchmaking.lRange (RedisMatchmaking.queueKey mode) st')
  ∧ (cand ∉ RedisMatchmaking.lRange (RedisMatchmaking.queueKey mode) st')
  ∧ (∀ i, i ∈ ints →
          sid ∉ RedisMatchmaking.sMembers (RedisMatchmaking.poolKey mode i) st')
  ∧ (∀ key x, x ≠ sid →
       (x ∈ RedisMatchmaking.sMembers key st' ↔ x ∈ RedisMatchmaking.sMembers key st)).
Proof.
  intros H. apply tryDequeuePair_cases in H as (Hne & Hin & ->).
  split; [assumption|]. split; [assumption|].
  rewrite lRange_lRem, decide_True by reflexivity.
  rewrite lRange_removeFromAll, decide_True by reflexivity.
  split; [|split; [|split]].
  - intros H. apply list_elem_of_filter in H as [_ H].
    apply list_elem_of_filter in H as [H _]. now apply H.
  - intros H. apply list_elem_of_filter in H as [H _]. now apply H.
  - intros i Hi. rewrite sMembers_lRem, sMembers_removeFromAll.
    rewrite decide_True by (apply list_elem_of_fmap; now exists i). set_solver.
  - intros key x N. rewrite sMembers_lRem, sMembers_removeFromAll.
    case_decide; set_solver.
Qed.

(** X29.  [tryDequeuePair] returns nothing exactly when the queue of the mode
    holds nobody but the caller, and it then leaves the store untouched. *)
Theorem redis_tryDequeuePair_none_iff (order : gset string → list string)
  (st : RedisMatchmaking.Store) (mode sid : string) (ints : list string) :
  ((RedisMatchmaking.tryDequeuePair order st mode sid ints).1 = None ↔
   ∀ x, x ∈ RedisMatchmaking.lRange (RedisMatchmaking.queueKey mode) st → x = sid)
  ∧ ((RedisMatchmaking.tryDequeuePair order st mode sid ints).1 = None →
     (RedisMatchmaking.tryDequeuePair order st mode sid ints).2 = st).
Proof.
  unfold RedisMatchmaking.tryDequeuePair.
  destruct (RedisMatchmaking.scanInterests order st mode sid ints) as [c|] eqn:E.
  - split; [|discriminate]. split; [discriminate|]. intros H. exfalso.
    apply scanInterests_Some in E as (Hne & Hin & _). now apply Hne, H.
  - destruct (RedisMatchmaking.firstOther sid _) as [c|] eqn:F.
    + split; [|discriminate]. split; [discriminate|]. intros H.
      apply firstOther_None in H. congruence.
    + split; [|reflexivity]. split; [|reflexivity]. intros _.
      now apply firstOther_None.
Qed.

(** X30.  Interests first: if a pool of one of the caller's interests has a
    member other than the caller that is in the queue, [tryDequeuePair]
    returns a member of a pool of one of the caller's interests, in whatever
    order Redis lists the members of a set. *)
Theorem redis_tryDequeuePair_prefers_interest (order : gset string → list string)
  (st : RedisMatchmaking.Store) (mode sid : string) (ints : list string)
  (i x : string) :
  enumerates order →
  i ∈ ints →
  x ∈ RedisMatchmaking.sMembers (RedisMatchmaking.poolKey mode i) st →
  x ≠ sid →
  x ∈ RedisMatchmaking.lRange (RedisMatchmaking.queueKey mode) st →
  ∃ cand j,
    (RedisMatchmaking.tryDequeuePair order st mode sid ints).1 = Some cand
    ∧ j ∈ ints
    ∧ cand ∈ RedisMatchmaking.sMembers (RedisMatchmaking.poolKey mode j) st.
Proof.
  intros Hord Hi Hx Hne Hq. unfold RedisMatchmaking.tryDequeuePair.
  destruct (RedisMatchmaking.scanInterests order st mode sid ints) as [c|] eqn:E.
  - apply scanInterests_Some in E as (_ & _ & j & Hj & Hc).
    exists c, j. split; [reflexivity|]. split; [assumption|]. now apply Hord.
  - exfalso. destruct (scanInterests_None _ _ _ _ _ E i x Hi); [now apply Hord | |];
      contradiction.
Qed.

(** X30 with the members listed by [elements]: A and C wait, A shares the
    caller's interest, C came first. *)
Lemma redis_tryDequeuePair_prefers_interest_witness :
  let st := RedisMatchmaking.enqueue
              (RedisMatchmaking.enqueue
                 (RedisMatchmaking.mkStore ∅ ∅) "video" "c" []) "video" "a" ["music"] in
  ∃ cand j,
    (RedisMatchmaking.tryDequeuePair elements st "video" "b" ["music"]).1 = Some cand
    ∧ j ∈ ["music"]
    ∧ cand ∈ RedisMatchmaking.sMembers (RedisMatchmaking.poolKey "video" j) st.
Proof.
  intros st.
  apply (redis_tryDequeuePair_prefers_interest elements st "video" "b" ["music"]
           "music" "a").
  - intros S x. apply elem_of_elements.
  - left.
  - refine (bool_decide_unpack _ _). vm_compute. exact I.
  - discriminate.
  - refine (bool_decide_unpack _ _). vm_compute. exact I.
Defined.

(** X28 on the same store: the caller B is given A. *)
Lemma redis_tryDequeuePair_some_witness :
  let st := RedisMatchmaking.enqueue
              (RedisMatchmaking.enqueue
                 (RedisMatchmaking.mkStore ∅ ∅) "video" "c" []) "video" "a" ["music"] in
  let st' := (RedisMatchmaking.tryDequeuePair elements st "video" "b" ["music"]).2 in
  "a" ≠ "b"
  ∧ "a" ∈ RedisMatchmaking.lRange (RedisMatchmaking.queueKey "video") st
  ∧ ("b" ∉ RedisMatchmaking.lRange (RedisMatchmaking.queueKey "video") st')
  ∧ ("a" ∉ RedisMatchmaking.lRange (RedisMatchmaking.queueKey "video") st')
  ∧ (∀ i, i ∈ ["music"] →
          "b" ∉ RedisMatchmaking.sMembers (RedisMatchmaking.poolKey "video" i) st')
  ∧ (∀ key x, x ≠ "b" →
       (x ∈ RedisMatchmaking.sMembers key st' ↔ x ∈ RedisMatchmaking.sMembers key st)).
Proof.
  intros st st'.
  apply (redis_tryDequeuePair_some elements st st' "video" "b" ["music"] "a").
  vm_compute. reflexivity.
Defined.

(** The keys of the queue lists and of the pool sets are always different, so
    no command of the helpers meets a key of the wrong type. *)
Lemma redis_queueKey_not_poolKey (mode mode' interest : string) :
  RedisMatchmaking.queueKey mode ≠ RedisMatchmaking.poolKey mode' interest.
Proof. discriminate. Qed.
